(** * Synthizer: biquad crossfading, property dispatch and source rendering

    A shallow embedding of the parts of Synthizer's audio graph runtime
    that live in [biquad.cpp], [sources.cpp], the filter-property C API
    and [property_impl.hpp], together with theorems about them.

    Conventions of the embedding:
    - [float] is IEEE binary32 and [double] is IEEE binary64, both given by
      the executable specification of [SpecFloat] (round to nearest even);
    - [unsigned char] and [int] values are [Z]; the block time is [N];
      channel counts and the indices of frames and samples are [nat], as
      they stay below [BLOCK_SIZE * MAX_CHANNELS] and never wrap around;
    - a sample buffer reached through a [float *] is a [list] of samples,
      and two buffers handed to one call do not overlap;
    - a C++ object is a record, a method takes the record and returns the
      updated one; calls into collaborators whose code lives elsewhere are
      [Variable]s of the enclosing [Section]. *)

From stdpp Require Import base list gmap.
From Stdlib Require Import ZArith Lia.
From Stdlib Require Import Floats.SpecFloat.

Local Open Scope Z_scope.

(** ** Floating point formats *)

(** IEEE binary32, the C++ [float]. *)
Module F32.
Definition prec : Z := 24.
Definition emax : Z := 128.
Definition t : Type := spec_float.
Definition zero : t := S754_zero false.
Definition one : t := SFone prec emax.
Definition add : t -> t -> t := SFadd prec emax.
Definition sub : t -> t -> t := SFsub prec emax.
Definition mul : t -> t -> t := SFmul prec emax.
Definition div : t -> t -> t := SFdiv prec emax.
(** Conversion of a non-negative integer, as in [(float) i]. *)
Definition of_Z (n : Z) : t := binary_normalize prec emax n 0 false.
(** Narrowing conversion [(float) d] of a binary64 value. *)
Definition of_double (d : spec_float) : t :=
  match d with
  | S754_finite s m e => binary_round prec emax s m e
  | _ => d
  end.
End F32.

(** IEEE binary64, the C++ [double]. *)
Module F64.
Definition prec : Z := 53.
Definition emax : Z := 1024.
Definition t : Type := spec_float.
Definition zero : t := S754_zero false.
Definition one : t := SFone prec emax.
Definition add : t -> t -> t := SFadd prec emax.
Definition sub : t -> t -> t := SFsub prec emax.
Definition mul : t -> t -> t := SFmul prec emax.
Definition div : t -> t -> t := SFdiv prec emax.
Definition ltb : t -> t -> bool := SFltb.
Definition of_Z (n : Z) : t := binary_normalize prec emax n 0 false.
(** [m * 2^e], rounded. *)
Definition of_scaled (m e : Z) : t := binary_normalize prec emax m e false.
End F64.

(** ** Constants of [config.hpp] *)
Module config.
Definition SR : Z := 44100.
Definition BLOCK_SIZE : Z := 256.
Definition MAX_CHANNELS : Z := 16.
End config.

(** ** Filter definitions *)

(** [BiquadFilterDef]: the library's internal filter definition, with
    three numerator and two denominator coefficients and a gain. *)
Record BiquadFilterDef := mkBiquadFilterDef {
  num_coefs : F64.t * F64.t * F64.t;
  den_coefs : F64.t * F64.t;
  def_gain : F64.t;
}.

(** [struct syz_BiquadConfig]: the external filter definition. *)
Record syz_BiquadConfig := mkBiquadConfig {
  b0 : F64.t; b1 : F64.t; b2 : F64.t;
  a1 : F64.t; a2 : F64.t;
  gain : F64.t;
}.

(** ** Control flow *)

(** A C++ statement either returns from the enclosing function or falls
    through to the statement after it. *)
Inductive ctl (A : Type) : Type :=
  | Return (a : A)
  | Next (a : A).
Arguments Return {A} a.
Arguments Next {A} a.

(** [then_ s k]: statement [s] followed by the statements [k]. *)
Definition then_ {A : Type} (s : ctl A) (k : A -> A) : A :=
  match s with
  | Return a => a
  | Next a => k a
  end.

(** ** [biquad.cpp]: the crossfading biquad filter *)

Section Biquad.
(** The template parameter. *)
Variable CHANNELS : nat.

(** [IIRFilter<CHANNELS, 3, 3>] of [iir_filter.hpp], which is not part of
    this development: its state, [setParameters], and [tick], which reads
    one input frame and sets one output frame of [CHANNELS] samples. *)
Variable IIRFilter : Type.
Variable setParameters : IIRFilter -> BiquadFilterDef -> IIRFilter.
Variable tick : IIRFilter -> list F32.t -> IIRFilter * list F32.t.
(** A freshly constructed [IIRFilter] and [designWire()] of
    [filter_design.hpp]. *)
Variable IIRFilter_new : IIRFilter.
Variable designWire : BiquadFilterDef.

Record ConcreteBiquadFilter := mkConcreteBiquadFilter {
  filters : IIRFilter * IIRFilter;
  crossfade : bool;
  (** Points to the index of the active filter in the array. *)
  active : Z;
}.

(** [filters[i]], for the two valid indices 0 and 1. *)
Definition filters_get (fs : IIRFilter * IIRFilter) (i : Z) : IIRFilter :=
  if i =? 0 then fst fs else snd fs.

Definition filters_set (fs : IIRFilter * IIRFilter) (i : Z) (f : IIRFilter)
  : IIRFilter * IIRFilter :=
  if i =? 0 then (f, snd fs) else (fst fs, f).

(** The constructor. *)
Definition ConcreteBiquadFilter_new : ConcreteBiquadFilter :=
  {| filters := (setParameters IIRFilter_new designWire,
                 setParameters IIRFilter_new designWire);
     crossfade := false;
     active := 0 |}.

Definition configure (self : ConcreteBiquadFilter) (config : syz_BiquadConfig)
  : ConcreteBiquadFilter :=
  let def := {| num_coefs := (b0 config, b1 config, b2 config);
                den_coefs := (a1 config, a2 config);
                def_gain := gain config |} in
  let idx := Z.lxor (active self) 1 in
  {| filters := filters_set (filters self) idx
                  (setParameters (filters_get (filters self) idx) def);
     crossfade := true;
     active := active self |}.

(** The frame at [buf + CHANNELS * i]. *)
Definition frame_at (buf : list F32.t) (i : nat) : list F32.t :=
  take CHANNELS (drop (CHANNELS * i)%nat buf).

(** Storing a frame at [buf + CHANNELS * i]. *)
Definition store_frame (buf : list F32.t) (i : nat) (fr : list F32.t)
  : list F32.t :=
  list_inserts (CHANNELS * i)%nat (take CHANNELS fr) buf.

Definition gain_inv : F32.t :=
  F32.div F32.one (F32.of_Z config.BLOCK_SIZE).

(** One iteration of the loop of [processBlockImpl<ADD, CROSSFADE>], on
    the active filter, the inactive filter and the output buffer. *)
Definition processFrame (ADD CROSSFADE : bool) (inb : list F32.t) (i : nat)
    (st : IIRFilter * IIRFilter * list F32.t)
  : IIRFilter * IIRFilter * list F32.t :=
  let '(act, inact, out) := st in
  let tmp := replicate CHANNELS F32.zero in
  let in_frame := frame_at inb i in
  (* out_frame = ADD || CROSSFADE ? out + CHANNELS * i : &tmp[0];
     active->tick(in_frame, out_frame); *)
  let '(act, y) := tick act in_frame in
  let '(out, tmp) :=
    if ADD || CROSSFADE then (store_frame out i y, tmp) else (out, take CHANNELS y) in
  let '(inact, tmp) :=
    if CROSSFADE then
      let '(inact, cf_tmp) := tick inact in_frame in
      let w2 := F32.mul (F32.of_Z (Z.of_nat i)) gain_inv in
      let w1 := F32.sub F32.one w2 in
      (inact,
       zip_with (fun cf t => F32.add (F32.mul cf w1) (F32.mul t w2)) cf_tmp tmp)
    else (inact, tmp) in
  let out :=
    if CROSSFADE || ADD then
      (* here out_frame is out + CHANNELS * i *)
      store_frame out i
        (zip_with (fun o t => if ADD then F32.add o t else t) (frame_at out i) tmp)
    else out in
  (act, inact, out).

Definition processBlockImpl (ADD CROSSFADE : bool)
    (self : ConcreteBiquadFilter) (inb out : list F32.t)
  : ConcreteBiquadFilter * list F32.t :=
  let a := active self in
  let '(act, inact, out) :=
    foldl (fun st i => processFrame ADD CROSSFADE inb i st)
          (filters_get (filters self) a,
           filters_get (filters self) (Z.lxor a 1), out)
          (seq 0 (Z.to_nat config.BLOCK_SIZE)) in
  ({| filters := filters_set (filters_set (filters self) a act) (Z.lxor a 1) inact;
      crossfade := crossfade self;
      active := active self |}, out).

(** The statements of [processBlock] after the [if (add)] statement. *)
Definition processBlock_finish (r : ConcreteBiquadFilter * list F32.t)
  : ConcreteBiquadFilter * list F32.t :=
  let '(self, out) := r in
  if crossfade self then
    ({| filters := filters self;
        crossfade := false;
        active := Z.lxor (active self) 1 |}, out)
  else r.

Definition processBlock (self : ConcreteBiquadFilter) (inb out : list F32.t)
    (add : bool) : ConcreteBiquadFilter * list F32.t :=
  then_
    (if add then
       if crossfade self then Return (processBlockImpl true true self inb out)
       else Return (processBlockImpl true false self inb out)
     else
       if crossfade self then Return (processBlockImpl false true self inb out)
       else Return (processBlockImpl false true self inb out))
    processBlock_finish.

(** Rendering any number of blocks, one input and one output buffer and
    one [add] flag per block. *)
Fixpoint processBlocks (self : ConcreteBiquadFilter)
    (blocks : list (list F32.t * list F32.t * bool)) : ConcreteBiquadFilter :=
  match blocks with
  | [] => self
  | (inb, out, add) :: blocks =>
      processBlocks (processBlock self inb out add).1 blocks
  end.

End Biquad.

Arguments filters {_} _.
Arguments crossfade {_} _.
Arguments active {_} _.
Arguments filters_get {_} fs i.
Arguments filters_set {_} fs i f.
Arguments ConcreteBiquadFilter_new {_} setParameters IIRFilter_new designWire.
Arguments configure {_} setParameters self config.
Arguments processFrame CHANNELS {_} tick ADD CROSSFADE inb i st.
Arguments processBlockImpl CHANNELS {_} tick ADD CROSSFADE self inb out.
Arguments processBlock_finish {_} r.
Arguments processBlock CHANNELS {_} tick self inb out add.
Arguments processBlocks CHANNELS {_} tick self blocks.

(** ** The filter-property C API *)

Section FilterProperties.
(** [designAudioEqLowpass] of [filter_design.hpp], which is not part of
    this development; it takes the normalized frequency and [q]. *)
Variable designAudioEqLowpass : F64.t -> F64.t -> BiquadFilterDef.

(** The library's internal filter definition is very different from the
    external; convert from one to the other. *)
Definition convertBiquadDef (def : BiquadFilterDef) : syz_BiquadConfig :=
  {| b0 := fst (fst (num_coefs def));
     b1 := snd (fst (num_coefs def));
     b2 := snd (num_coefs def);
     a1 := fst (den_coefs def);
     a2 := snd (den_coefs def);
     gain := def_gain def |}.

(** [syz_designBiquadLowpass(filter, frequency, q)]: the first argument is
    what [*filter] holds on entry; the result is the error code and what
    [*filter] holds on return. *)
Definition syz_designBiquadLowpass (filter : syz_BiquadConfig)
    (frequency q : F64.t) : Z * syz_BiquadConfig :=
  let filter :=
    convertBiquadDef
      (designAudioEqLowpass (F64.div frequency (F64.of_Z config.SR)) q) in
  (0, filter).
End FilterProperties.

(** ** [property_impl.hpp]: property dispatch *)

(** [enum SYZ_PROPERTIES], as far as it is used below. *)
Definition SYZ_P_AZIMUTH : Z := 0.
Definition SYZ_P_BUFFER : Z := 1.
Definition SYZ_P_ELEVATION : Z := 7.
Definition SYZ_P_GAIN : Z := 8.
Definition SYZ_P_PANNER_STRATEGY : Z := 9.
Definition SYZ_P_POSITION : Z := 11.
Definition SYZ_P_LOOPING : Z := 14.

(** The exceptions thrown by the property methods. *)
Inductive error : Type :=
  | EPropertyType
  | ERange
  | EHandleType
  | EPropertyDoesNotExist.

#[global] Instance error_eq_dec : EqDecision error.
Proof. solve_decision. Defined.

(** A call either returns a value or throws. *)
Inductive outcome (A : Type) : Type :=
  | Ok (a : A)
  | Throw (e : error).
Arguments Ok {A} a.
Arguments Throw {A} e.

Section Properties.
(** The objects behind [std::shared_ptr<CExposable>], the classes named
    by [OBJECT_P], and whether [std::dynamic_pointer_cast<cls>] of a
    non-null pointer to the object succeeds. *)
Variable CExposable : Type.
Variable Cls : Type.
Variable instance_of : CExposable -> Cls -> bool.

(** [property_impl::PropertyValue]; a null object pointer is [None]. *)
Inductive PropertyValue : Type :=
  | PV_int (x : Z)
  | PV_double (x : F64.t)
  | PV_object (x : option CExposable)
  | PV_double3 (x : F64.t * F64.t * F64.t)
  | PV_double6 (x : F64.t * F64.t * F64.t * F64.t * F64.t * F64.t).

(** One entry of a [PROPERTY_LIST] X-macro: the property id and, by kind,
    the inclusive range or the required class. The two names of the
    entry only select the member that backs the property. *)
Inductive property_decl : Type :=
  | INT_P (p : Z) (min max : Z)
  | DOUBLE_P (p : Z) (min max : F64.t)
  | OBJECT_P (p : Z) (cls : Cls)
  | DOUBLE3_P (p : Z)
  | DOUBLE6_P (p : Z).

Definition decl_id (d : property_decl) : Z :=
  match d with
  | INT_P p _ _ | DOUBLE_P p _ _ | OBJECT_P p _ | DOUBLE3_P p | DOUBLE6_P p => p
  end.

(** The variant alternative a declaration asks for, and the one a value
    holds: 0 int, 1 double, 2 object, 3 double3, 4 double6. *)
Definition decl_kind (d : property_decl) : nat :=
  match d with
  | INT_P _ _ _ => 0 | DOUBLE_P _ _ _ => 1 | OBJECT_P _ _ => 2
  | DOUBLE3_P _ => 3 | DOUBLE6_P _ => 4
  end%nat.

Definition value_kind (v : PropertyValue) : nat :=
  match v with
  | PV_int _ => 0 | PV_double _ => 1 | PV_object _ => 2
  | PV_double3 _ => 3 | PV_double6 _ => 4
  end%nat.

(** A class that includes [property_impl.hpp] with [PROPERTY_LIST] and
    [PROPERTY_BASE], down to [BaseObject] at the root. *)
Inductive property_class : Type :=
  | BaseObject
  | PropertyClass (PROPERTY_LIST : list property_decl)
                  (PROPERTY_BASE : property_class).

(** The [case] label of the [switch] that matches, if any. *)
Definition switch_case (PROPERTY_LIST : list property_decl) (property : Z)
  : option property_decl :=
  List.find (fun d => decl_id d =? property) PROPERTY_LIST.

(** Modelled from the spec: the methods of [BaseObject] in
    [base_object.hpp], which is not part of this development. No class
    declares the property once the root is reached: [hasProperty] is
    false and the other methods fail with [PropertyDoesNotExist]. *)
Definition BaseObject_hasProperty (property : Z) : bool := false.
Definition BaseObject_fail {A : Type} (property : Z) : outcome A :=
  Throw EPropertyDoesNotExist.

Fixpoint hasProperty (c : property_class) (property : Z) : bool :=
  match c with
  | BaseObject => BaseObject_hasProperty property
  | PropertyClass PROPERTY_LIST PROPERTY_BASE =>
      match switch_case PROPERTY_LIST property with
      | Some _ => true                                (* case (P): return true; *)
      | None =>
          (* default: PROPERTY_BASE::hasProperty(property); *)
          let _ := hasProperty PROPERTY_BASE property in
          false                                       (* return false; *)
      end
  end.

(** The members that back the properties, by property id. *)
Definition members : Type := gmap Z PropertyValue.

(** The value of a member that was never set, by kind. *)
Definition initial_value (d : property_decl) : PropertyValue :=
  match d with
  | INT_P _ _ _ => PV_int 0
  | DOUBLE_P _ _ _ => PV_double F64.zero
  | OBJECT_P _ _ => PV_object None
  | DOUBLE3_P _ => PV_double3 (F64.zero, F64.zero, F64.zero)
  | DOUBLE6_P _ =>
      PV_double6 (F64.zero, F64.zero, F64.zero, F64.zero, F64.zero, F64.zero)
  end.

Fixpoint getProperty (c : property_class) (m : members) (property : Z)
  : outcome PropertyValue :=
  match c with
  | BaseObject => BaseObject_fail property
  | PropertyClass PROPERTY_LIST PROPERTY_BASE =>
      match switch_case PROPERTY_LIST property with
      | Some d =>
          let ret := default (initial_value d) (m !! property) in
          if bool_decide (value_kind ret = decl_kind d) then Ok ret
          else Throw EPropertyType
      | None => getProperty PROPERTY_BASE m property
      end
  end.

(** The checker of [VALIDATE_], applied once the alternative matches. *)
Definition checker (d : property_decl) (value : PropertyValue) : outcome unit :=
  match d, value with
  | INT_P _ min max, PV_int x =>
      if (x <? min) || (x >? max) then Throw ERange else Ok tt
  | DOUBLE_P _ min max, PV_double x =>
      if F64.ltb x min || F64.ltb max x then Throw ERange else Ok tt
  | OBJECT_P _ cls, PV_object x =>
      match x with
      | None => Ok tt
      | Some y => if instance_of y cls then Ok tt else Throw EHandleType
      end
  | _, _ => Ok tt
  end.

Fixpoint validateProperty (c : property_class) (property : Z)
    (value : PropertyValue) : outcome unit :=
  match c with
  | BaseObject => BaseObject_fail property
  | PropertyClass PROPERTY_LIST PROPERTY_BASE =>
      match switch_case PROPERTY_LIST property with
      | Some d =>
          if bool_decide (value_kind value = decl_kind d) then checker d value
          else Throw EPropertyType
      | None => validateProperty PROPERTY_BASE property value
      end
  end.

Fixpoint setProperty (c : property_class) (m : members) (property : Z)
    (value : PropertyValue) : outcome members :=
  match c with
  | BaseObject => BaseObject_fail property
  | PropertyClass PROPERTY_LIST PROPERTY_BASE =>
      match switch_case PROPERTY_LIST property with
      | Some d =>
          if bool_decide (value_kind value = decl_kind d)
          then Ok (<[property := value]> m)
          else Throw EPropertyType
      | None => setProperty PROPERTY_BASE m property value
      end
  end.

(** An object with properties: its class and its members. *)
Record object := mkObject {
  obj_class : property_class;
  obj_members : members;
}.

(** Modelled from the spec: the external write path of [Context]
    ([setIntProperty] and its siblings, whose bodies are not part of this
    development). An external set validates synchronously, rejecting a
    bad write before anything crosses to the audio thread; an accepted
    write goes through the property ring and is applied with
    [setProperty] at the top of the next block. The result is the error
    reported to the caller, if any, and the object after that block. *)
Definition Context_setProperty (obj : object) (property : Z)
    (value : PropertyValue) : option error * object :=
  match validateProperty (obj_class obj) property value with
  | Throw e => (Some e, obj)
  | Ok _ =>
      match setProperty (obj_class obj) (obj_members obj) property value with
      | Ok m => (None, {| obj_class := obj_class obj; obj_members := m |})
      | Throw _ => (None, obj)
      end
  end.

(** The declaration that governs a property along the chain: the one of
    the most derived class that declares it. *)
Fixpoint declared (c : property_class) (property : Z) : option property_decl :=
  match c with
  | BaseObject => None
  | PropertyClass PROPERTY_LIST PROPERTY_BASE =>
      match switch_case PROPERTY_LIST property with
      | Some d => Some d
      | None => declared PROPERTY_BASE property
      end
  end.

End Properties.

Arguments PV_int {_} x.
Arguments PV_double {_} x.
Arguments PV_object {_} x.
Arguments PV_double3 {_} x.
Arguments PV_double6 {_} x.
Arguments INT_P {_} p min max.
Arguments DOUBLE_P {_} p min max.
Arguments OBJECT_P {_} p cls.
Arguments DOUBLE3_P {_} p.
Arguments DOUBLE6_P {_} p.
Arguments decl_id {_} d.
Arguments decl_kind {_} d.
Arguments value_kind {_} v.
Arguments BaseObject {_}.
Arguments PropertyClass {_} PROPERTY_LIST PROPERTY_BASE.
Arguments switch_case {_} PROPERTY_LIST property.
Arguments hasProperty {_} c property.
Arguments getProperty {_ _} c m property.
Arguments checker {_ _} instance_of d value.
Arguments validateProperty {_ _} instance_of c property value.
Arguments setProperty {_ _} c m property value.
Arguments obj_class {_ _} _.
Arguments obj_members {_ _} _.
Arguments Context_setProperty {_ _} instance_of obj property value.
Arguments declared {_} c property.

(** ** [sources.cpp]: sources and their generators *)

(** The identity of a [Generator] object: what a [std::shared_ptr] or
    [std::weak_ptr] to it refers to. *)
Definition gen_ptr : Type := positive.

(** What [fillBlock] asks of its collaborators, in order. *)
Inductive event : Type :=
  | EvTickPausable
  | EvRun (g : gen_ptr)
  | EvRouteAudio (block : list F32.t) (channels : nat).

#[global] Instance spec_float_eq_dec : EqDecision spec_float.
Proof. solve_decision. Defined.

#[global] Instance event_eq_dec : EqDecision event.
Proof. solve_decision. Defined.

Definition BLOCK_SIZE : nat := Z.to_nat config.BLOCK_SIZE.
Definition MAX_CHANNELS : nat := Z.to_nat config.MAX_CHANNELS.

(** [std::fill(buf, buf + n, v)], for [n] within the buffer. *)
Definition std_fill {A : Type} (buf : list A) (n : nat) (v : A) : list A :=
  replicate n v ++ drop n buf.

(** [std::swap(v[i], v[j])], for [i] and [j] within the vector. *)
Definition vec_swap {A : Type} (v : list A) (i j : nat) : list A :=
  match v !! i, v !! j with
  | Some x, Some y => <[i := y]> (<[j := x]> v)
  | _, _ => v
  end.

(** Modelled from the spec: [acquireBlockBuffer()] of
    [block_buffer_cache.hpp], which is not part of this development: a
    scratch block of [BLOCK_SIZE * MAX_CHANNELS] samples, zero-filled on
    acquisition. *)
Definition acquireBlockBuffer : list F32.t :=
  replicate (BLOCK_SIZE * MAX_CHANNELS) F32.zero.

(** The generators whose [run] a list of events records, in order. *)
Definition runs_of (events : list event) : list gen_ptr :=
  omap (fun e => match e with EvRun g => Some g | _ => None end) events.

Section Sources.
(** The generators as the audio thread sees them, with the methods of
    [generator.hpp]: whether the object still exists (a [weak_ptr] to it
    locks), [getChannels], and [run], which works on the buffer it is
    handed and may change the generator. *)
Variable World : Type.
Variable alive : World -> gen_ptr -> bool.
Variable getChannels : World -> gen_ptr -> nat.
Variable run : World -> gen_ptr -> list F32.t -> World * list F32.t.

(** [mixChannels(frames, in, in_channels, out, out_channels)] of
    [channel_mixing.hpp]; the result is the output buffer. *)
Variable mixChannels : nat -> list F32.t -> nat -> list F32.t -> nat -> list F32.t.

(** The pausable state of [pausable.hpp]. *)
Variable Pausable : Type.
Variable isPaused : Pausable -> bool.
Variable shouldIncorporatePausableGain : Pausable -> bool.
Variable getPausableGain : Pausable -> F64.t.
Variable tickPausable : Pausable -> Pausable.

(** The gain property: [acquireGain(out)] stores the gain in [out] and
    returns whether it changed since the last call. *)
Variable GainProperty : Type.
Variable acquireGain : GainProperty -> bool * F64.t * GainProperty.

(** The [FadeDriver] of [fade_driver.hpp]: [setValue(time, value)], and
    the gain callback that [drive(time, ...)] hands out. *)
Variable FadeDriver : Type.
Variable setValue : FadeDriver -> N -> F64.t -> FadeDriver.
Variable drive : FadeDriver -> N -> nat -> F32.t.

Record Source := mkSource {
  generators : list gen_ptr;
  block : list F32.t;
  gain_fader : FadeDriver;
  pausable : Pausable;
  gain_property : GainProperty;
}.

(** [std::weak_ptr::lock]: the shared pointer, or null. *)
Definition lock (w : World) (g : gen_ptr) : option gen_ptr :=
  if alive w g then Some g else None.

(** Modelled from the spec: [weak_vector::contains] of
    [vector_helpers.hpp], which is not part of this development: whether
    some weak reference of the vector refers to the given object. *)
Definition weak_vector_contains (w : World) (v : list gen_ptr) (x : gen_ptr)
  : bool :=
  existsb (fun i => bool_decide (lock w i = Some x)) v.

(** Modelled from the spec: [weak_vector::iterate_removing] of
    [vector_helpers.hpp], which is not part of this development:
    "upgrade each weak ref; if expired, remove; otherwise" call the
    closure on it. The closure works on a state that holds the [World]. *)
Fixpoint weak_vector_iterate_removing {St : Type} (world : St -> World)
    (callable : gen_ptr -> St -> St) (v : list gen_ptr) (st : St)
  : list gen_ptr * St :=
  match v with
  | [] => ([], st)
  | g :: v =>
      match lock (world st) g with
      | Some s =>
          let '(v, st) :=
            weak_vector_iterate_removing world callable v (callable s st) in
          (g :: v, st)
      | None => weak_vector_iterate_removing world callable v st
      end
  end.

Definition hasGenerator (w : World) (self : Source) (generator : gen_ptr)
  : bool :=
  weak_vector_contains w (generators self) generator.

Definition set_generators (self : Source) (v : list gen_ptr) : Source :=
  {| generators := v;
     block := block self;
     gain_fader := gain_fader self;
     pausable := pausable self;
     gain_property := gain_property self |}.

Definition addGenerator (w : World) (self : Source) (generator : gen_ptr)
  : Source :=
  if hasGenerator w self generator then self
  else set_generators self (generators self ++ [generator]).

(** The [for] loop of [removeGenerator], started at [index]: the first
    index at or after it whose weak reference locks to [generator], or
    the size of the vector. *)
Fixpoint find_generator (w : World) (v : list gen_ptr) (generator : gen_ptr)
    (index : nat) : nat :=
  match v with
  | [] => index
  | i :: v =>
      if bool_decide (lock w i = Some generator) then index
      else find_generator w v generator (S index)
  end.

Definition removeGenerator (w : World) (self : Source) (generator : gen_ptr)
  : Source :=
  if bool_decide (generators self = []) then self
  else if negb (hasGenerator w self generator) then self
  else
    let index := find_generator w (generators self) generator 0 in
    let last := (length (generators self) - 1)%nat in
    let v := vec_swap (generators self) last index in
    set_generators self (take last v).

(** The state the closure of [fillBlock] works on. *)
Record RunState := mkRunState {
  rs_world : World;
  rs_premix : list F32.t;
  rs_block : list F32.t;
  rs_events : list event;
}.

(** The closure handed to [iterate_removing]. *)
Definition run_generator (channels : nat) (g : gen_ptr) (st : RunState)
  : RunState :=
  let nch := getChannels (rs_world st) g in
  if (nch =? 0)%nat then st
  else if (nch =? channels)%nat then
    let '(w, blk) := run (rs_world st) g (rs_block st) in
    {| rs_world := w; rs_premix := rs_premix st; rs_block := blk;
       rs_events := rs_events st ++ [EvRun g] |}
  else
    let premix := std_fill (rs_premix st) (BLOCK_SIZE * nch) F32.zero in
    let '(w, premix) := run (rs_world st) g premix in
    {| rs_world := w; rs_premix := premix;
       rs_block := mixChannels BLOCK_SIZE premix nch (rs_block st) channels;
       rs_events := rs_events st ++ [EvRun g] |}.

Definition run_generators (channels : nat) (v : list gen_ptr) (st : RunState)
  : list gen_ptr * RunState :=
  weak_vector_iterate_removing rs_world (run_generator channels) v st.

(** The closure handed to [gain_fader.drive]. *)
Definition apply_gain (channels : nat) (gain_cb : nat -> F32.t)
    (blk : list F32.t) : list F32.t :=
  foldl (fun blk i =>
           let g := gain_cb i in
           foldl (fun blk ch =>
                    alter (fun x => F32.mul x g) (i * channels + ch)%nat blk)
                 blk (seq 0 channels))
        blk (seq 0 BLOCK_SIZE).

(** What a call of [fillBlock] leaves behind. *)
Record Filled := mkFilled {
  f_source : Source;
  f_world : World;
  f_events : list event;
}.

(** The state of the closure when the iteration over the generators
    starts: the premix buffer is as acquired, the block was just zeroed,
    and the pausable state was just ticked. *)
Definition fill_start (w : World) (self : Source) (channels : nat) : RunState :=
  {| rs_world := w;
     rs_premix := acquireBlockBuffer;
     rs_block := std_fill (block self) (channels * BLOCK_SIZE) F32.zero;
     rs_events := [EvTickPausable] |}.

(** [fillBlock(channels)], at block time [time]. *)
Definition fillBlock (w : World) (time : N) (self : Source) (channels : nat)
  : Filled :=
  let '(changed, gain_prop, gain_property) := acquireGain (gain_property self) in
  let gain_fader :=
    if changed || shouldIncorporatePausableGain (pausable self) then
      setValue (gain_fader self) time
        (F64.mul gain_prop (getPausableGain (pausable self)))
    else gain_fader self in
  let blk := std_fill (block self) (channels * BLOCK_SIZE) F32.zero in
  if isPaused (pausable self) then
    {| f_source := {| generators := generators self; block := blk;
                      gain_fader := gain_fader; pausable := pausable self;
                      gain_property := gain_property |};
       f_world := w;
       f_events := [] |}
  else
    let pausable := tickPausable (pausable self) in
    let '(v, st) := run_generators channels (generators self)
                      (fill_start w self channels) in
    let blk := apply_gain channels (drive gain_fader time) (rs_block st) in
    {| f_source := {| generators := v; block := blk;
                      gain_fader := gain_fader; pausable := pausable;
                      gain_property := gain_property |};
       f_world := rs_world st;
       f_events := rs_events st ++ [EvRouteAudio blk channels] |}.

(** One step in the life of a source on the audio thread: a command adds
    or removes a generator it holds a reference to, or a block is
    rendered. *)
Inductive source_step : Source -> Source -> Prop :=
  | step_add (w : World) (self : Source) (g : gen_ptr) :
      alive w g = true -> source_step self (addGenerator w self g)
  | step_remove (w : World) (self : Source) (g : gen_ptr) :
      alive w g = true -> source_step self (removeGenerator w self g)
  | step_fill (w : World) (time : N) (self : Source) (channels : nat) :
      source_step self (f_source (fillBlock w time self channels)).

End Sources.

Arguments generators {_ _ _} _.
Arguments block {_ _ _} _.
Arguments gain_fader {_ _ _} _.
Arguments pausable {_ _ _} _.
Arguments gain_property {_ _ _} _.
Arguments set_generators {_ _ _} self v.
Arguments lock {_} alive w g.
Arguments weak_vector_contains {_} alive w v x.
Arguments weak_vector_iterate_removing {_} alive {_} world callable v st.
Arguments find_generator {_} alive w v generator index.
Arguments hasGenerator {_} alive {_ _ _} w self generator.
Arguments addGenerator {_} alive {_ _ _} w self generator.
Arguments removeGenerator {_} alive {_ _ _} w self generator.
Arguments rs_world {_} _.
Arguments rs_premix {_} _.
Arguments rs_block {_} _.
Arguments rs_events {_} _.
Arguments run_generator {_} getChannels run mixChannels channels g st.
Arguments run_generators {_} alive getChannels run mixChannels channels v st.
Arguments f_source {_ _ _ _} _.
Arguments f_world {_ _ _ _} _.
Arguments f_events {_ _ _ _} _.
Arguments fill_start {_ _ _ _} w self channels.
Arguments fillBlock {_} alive getChannels run mixChannels
  {_} isPaused shouldIncorporatePausableGain getPausableGain tickPausable
  {_} acquireGain {_} setValue drive w time self channels.
Arguments source_step {_} alive getChannels run mixChannels
  {_} isPaused shouldIncorporatePausableGain getPausableGain tickPausable
  {_} acquireGain {_} setValue drive _ _.

(** ** More of [biquad.cpp]: the filter factories *)

Section BiquadFactory.
(** [IIRFilter<CHANNELS, 3, 3>] for every number of channels. *)
Variable IIRFilterOf : nat -> Type.
Variable setParametersOf :
  forall n : nat, IIRFilterOf n -> BiquadFilterDef -> IIRFilterOf n.
Variable IIRFilterOf_new : forall n : nat, IIRFilterOf n.
Variable designWire : BiquadFilterDef.

(** A [std::shared_ptr<BiquadFilter>]: a [ConcreteBiquadFilter<CHANNELS>]
    seen through its base class. *)
Record BiquadFilter := mkBiquadFilter {
  bf_channels : nat;
  bf_filter : ConcreteBiquadFilter (IIRFilterOf bf_channels);
}.

Definition biquadFilterFactory (CHANNELS : nat) (_ : unit) : BiquadFilter :=
  {| bf_channels := CHANNELS;
     bf_filter := ConcreteBiquadFilter_new (setParametersOf CHANNELS)
                    (IIRFilterOf_new CHANNELS) designWire |}.

Definition factories : list (unit -> BiquadFilter) :=
  [ biquadFilterFactory 1; biquadFilterFactory 2; biquadFilterFactory 3;
    biquadFilterFactory 4; biquadFilterFactory 5; biquadFilterFactory 6;
    biquadFilterFactory 7; biquadFilterFactory 8; biquadFilterFactory 9;
    biquadFilterFactory 10; biquadFilterFactory 11; biquadFilterFactory 12;
    biquadFilterFactory 13; biquadFilterFactory 14; biquadFilterFactory 15;
    biquadFilterFactory 16 ]%nat.

(** [createBiquadFilter(channels)]; a failed [assert] ends the program and
    gives [None]. *)
Definition createBiquadFilter (channels : nat) : option BiquadFilter :=
  if negb (0 <? channels)%nat then None
  else if negb (channels <=? MAX_CHANNELS)%nat then None
  else (fun f => f tt) <$> factories !! (channels - 1)%nat.

End BiquadFactory.

Arguments bf_channels {_} _.
Arguments bf_filter {_} _.
Arguments biquadFilterFactory {_} setParametersOf IIRFilterOf_new designWire CHANNELS _.
Arguments factories {_} setParametersOf IIRFilterOf_new designWire.
Arguments createBiquadFilter {_} setParametersOf IIRFilterOf_new designWire channels.

(** ** The life of a biquad filter *)

(** The calls a [BiquadFilter] receives after its construction. *)
Inductive biquad_call : Type :=
  | CallConfigure (config : syz_BiquadConfig)
  | CallProcessBlock (inb out : list F32.t) (add : bool).

Section BiquadCalls.
Variable CHANNELS : nat.
Variable IIRFilter : Type.
Variable setParameters : IIRFilter -> BiquadFilterDef -> IIRFilter.
Variable tick : IIRFilter -> list F32.t -> IIRFilter * list F32.t.

Definition biquad_apply (self : ConcreteBiquadFilter IIRFilter)
    (c : biquad_call) : ConcreteBiquadFilter IIRFilter :=
  match c with
  | CallConfigure config => configure setParameters self config
  | CallProcessBlock inb out add => (processBlock CHANNELS tick self inb out add).1
  end.

Definition biquad_calls (self : ConcreteBiquadFilter IIRFilter)
    (cs : list biquad_call) : ConcreteBiquadFilter IIRFilter :=
  foldl biquad_apply self cs.

Definition is_configure (c : biquad_call) : bool :=
  match c with CallConfigure _ => true | CallProcessBlock _ _ _ => false end.

End BiquadCalls.

Arguments biquad_apply CHANNELS {_} setParameters tick self c.
Arguments biquad_calls CHANNELS {_} setParameters tick self cs.

(** ** More of the filter-property C API *)

Section FilterDesigns.
(** [designAudioEqHighpass] and [designAudioEqBandpass] of
    [filter_design.hpp], which is not part of this development. *)
Variable designAudioEqHighpass : F64.t -> F64.t -> BiquadFilterDef.
Variable designAudioEqBandpass : F64.t -> F64.t -> BiquadFilterDef.

Definition syz_designBiquadHighpass (filter : syz_BiquadConfig)
    (frequency q : F64.t) : Z * syz_BiquadConfig :=
  let filter :=
    convertBiquadDef
      (designAudioEqHighpass (F64.div frequency (F64.of_Z config.SR)) q) in
  (0, filter).

Definition syz_designBiquadBandpass (filter : syz_BiquadConfig)
    (frequency bw : F64.t) : Z * syz_BiquadConfig :=
  let filter :=
    convertBiquadDef
      (designAudioEqBandpass (F64.div frequency (F64.of_Z config.SR)) bw) in
  (0, filter).

End FilterDesigns.

(** ** [property_internals.hpp]: the widest ranges *)

Module property_impl.
(** [std::numeric_limits<int>::min()] and [max()]. *)
Definition int_min : Z := - 2 ^ 31.
Definition int_max : Z := 2 ^ 31 - 1.
(** [std::numeric_limits<double>::lowest()] and [max()]. *)
Definition double_max : F64.t := SFmax_float F64.prec F64.emax.
Definition double_min : F64.t := SFopp double_max.
End property_impl.

(** ** Instances of the collaborators *)

(** A memoryless filter to run the biquad wrapper on: it keeps the
    definition it was given and scales every sample of a frame by
    [gain * b0], whatever the number of channels. *)
Module GainFilter.
Definition t : Type := BiquadFilterDef.

Definition setParameters (_ : t) (def : BiquadFilterDef) : t := def.

Definition tick (f : t) (in_frame : list F32.t) : t * list F32.t :=
  let k := F32.of_double (F64.mul (def_gain f) (fst (fst (num_coefs f)))) in
  (f, map (fun x => F32.mul k x) in_frame).

(** The identity filter. *)
Definition designWire : BiquadFilterDef :=
  {| num_coefs := (F64.one, F64.zero, F64.zero);
     den_coefs := (F64.zero, F64.zero);
     def_gain := F64.one |}.

(** The configuration of a filter that multiplies by [k]. *)
Definition scale (k : Z) : syz_BiquadConfig :=
  {| b0 := F64.one; b1 := F64.zero; b2 := F64.zero;
     a1 := F64.zero; a2 := F64.zero; gain := F64.of_Z k |}.

(** A mono biquad filter as its constructor leaves it. *)
Definition fresh : ConcreteBiquadFilter t :=
  ConcreteBiquadFilter_new setParameters designWire designWire.

(** One block of a constant mono signal. *)
Definition constant (x : F32.t) : list F32.t := replicate BLOCK_SIZE x.

Definition half : F32.t := F32.div F32.one (F32.of_Z 2).
Definition quarter : F32.t := F32.div F32.one (F32.of_Z 4).
End GainFilter.

(** What the crossfade is meant to compute for frame [i] from the outputs
    of the two filters: the inactive output weighted by [1 - i / BLOCK_SIZE]
    plus the active output weighted by [i / BLOCK_SIZE]. *)
Definition crossfade_blend (i : nat) (inactive_out active_out : F32.t) : F32.t :=
  let w2 := F32.div (F32.of_Z (Z.of_nat i)) (F32.of_Z config.BLOCK_SIZE) in
  let w1 := F32.sub F32.one w2 in
  F32.add (F32.mul w1 inactive_out) (F32.mul w2 active_out).

(** Classes with properties to run the dispatcher on, in the manner of
    the source classes of the library: a source with a gain, a panned
    source derived from it, and a generator that plays a buffer. *)
Module PropertyRig.
Inductive cls : Type := Buffer | Generator.

#[global] Instance cls_eq_dec : EqDecision cls.
Proof. solve_decision. Defined.

(** An exposable object is known by its handle and its class. *)
Record exposable := mkExposable { handle : positive; class_of : cls }.

Definition instance_of (o : exposable) (c : cls) : bool :=
  bool_decide (class_of o = c).

Definition double_max : F64.t := SFmax_float F64.prec F64.emax.

Definition Source_class : property_class cls :=
  PropertyClass [DOUBLE_P SYZ_P_GAIN F64.zero double_max] BaseObject.

Definition PannedSource_class : property_class cls :=
  PropertyClass
    [DOUBLE_P SYZ_P_AZIMUTH F64.zero (F64.of_Z 360);
     DOUBLE_P SYZ_P_ELEVATION (F64.of_scaled (-90) 0) (F64.of_Z 90);
     INT_P SYZ_P_PANNER_STRATEGY 0 1]
    Source_class.

Definition BufferGenerator_class : property_class cls :=
  PropertyClass
    [OBJECT_P SYZ_P_BUFFER Buffer; INT_P SYZ_P_LOOPING 0 1]
    BaseObject.

(** A panned source whose gain was set to 1.0. *)
Definition panned_source : object exposable cls :=
  {| obj_class := PannedSource_class;
     obj_members := {[ SYZ_P_GAIN := PV_double F64.one ]} |}.

Definition buffer_generator : object exposable cls :=
  {| obj_class := BufferGenerator_class; obj_members := ∅ |}.

Definition minus_one : F64.t := SFopp F64.one.
End PropertyRig.

(** Collaborators to run a source on. The world maps every live generator
    to its channel count; a generator adds 0.25 to every sample of the
    buffer it is handed; mixing adds the first input channel to every
    output channel; the pausable state counts its ticks; the fader holds
    the last gain it was given. *)
Module SourceRig.
Definition World : Type := gmap gen_ptr nat.

Definition alive (w : World) (g : gen_ptr) : bool :=
  bool_decide (is_Some (w !! g)).

Definition getChannels (w : World) (g : gen_ptr) : nat :=
  default 0%nat (w !! g).

Definition run (w : World) (g : gen_ptr) (buf : list F32.t)
  : World * list F32.t :=
  (w, map (F32.add GainFilter.quarter) buf).

Definition mixChannels (frames : nat) (inb : list F32.t) (in_channels : nat)
    (outb : list F32.t) (out_channels : nat) : list F32.t :=
  imap (fun j x =>
          F32.add x (default F32.zero
                       (inb !! (j `div` out_channels * in_channels)%nat)))
       outb.

Record Pausable := mkPausable { paused : bool; ticks : nat }.

Definition tickPausable (p : Pausable) : Pausable :=
  {| paused := paused p; ticks := S (ticks p) |}.

Definition getPausableGain (p : Pausable) : F64.t :=
  if paused p then F64.zero else F64.one.

Definition acquireGain (g : bool * F64.t) : bool * F64.t * (bool * F64.t) :=
  (g.1, g.2, (false, g.2)).

Definition setValue (f : F32.t) (time : N) (value : F64.t) : F32.t :=
  F32.of_double value.

Definition drive (f : F32.t) (time : N) (i : nat) : F32.t := f.

Abbreviation Source := (Source Pausable (bool * F64.t)%type F32.t).

Abbreviation fillBlock :=
  (fillBlock alive getChannels run mixChannels paused (fun _ => false)
     getPausableGain tickPausable acquireGain setValue drive).

(** Generators 1 (stereo), 2 (mono) and 3 (silent this block) are live. *)
Definition world : World := {[ 1%positive := 2%nat; 2%positive := 1%nat;
                               3%positive := 0%nat ]}.

(** A stereo source with block buffer [blk]. *)
Definition source (v : list gen_ptr) (blk : list F32.t) (is_paused : bool)
  : Source :=
  {| generators := v;
     block := blk;
     gain_fader := F32.one;
     pausable := {| paused := is_paused; ticks := 0 |};
     gain_property := (false, F64.one) |}.

(** A block buffer that still holds the samples of the previous block. *)
Definition stale : list F32.t :=
  replicate (BLOCK_SIZE * MAX_CHANNELS) GainFilter.half.
End SourceRig.

(** A class whose properties take the widest ranges of
    [property_internals.hpp]. *)
Module WideRig.
Definition SYZ_P_PITCH_BEND : Z := 16.

Definition wide_class : property_class PropertyRig.cls :=
  PropertyClass
    [DOUBLE_P SYZ_P_PITCH_BEND property_impl.double_min property_impl.double_max;
     INT_P SYZ_P_LOOPING property_impl.int_min property_impl.int_max]
    BaseObject.
End WideRig.

(** * Theorems *)

(** ** The biquad filter *)

Section BiquadFacts.
Variable CHANNELS : nat.
Variable IIRFilter : Type.
Variable setParameters : IIRFilter -> BiquadFilterDef -> IIRFilter.
Variable tick : IIRFilter -> list F32.t -> IIRFilter * list F32.t.

Abbreviation filter := (ConcreteBiquadFilter IIRFilter).
Abbreviation impl := (processBlockImpl CHANNELS tick).
Abbreviation process := (processBlock CHANNELS tick).
Abbreviation processMany := (processBlocks CHANNELS tick).

(** [processBlockImpl] works on the two filters and on the output only. *)
Lemma processBlockImpl_flags (ADD CROSSFADE : bool) (self : filter)
    (inb out : list F32.t) :
  crossfade (impl ADD CROSSFADE self inb out).1 = crossfade self /\
  active (impl ADD CROSSFADE self inb out).1 = active self.
Proof.
  unfold processBlockImpl.
  destruct (foldl _ _ _) as [[act inact] out']. done.
Qed.

(** Every branch of [processBlock] returns what [processBlockImpl]
    returns, so the statements after the branches never run. *)
Lemma processBlock_dispatch (self : filter) (inb out : list F32.t) (add : bool) :
  process self inb out add =
  impl add (if add then crossfade self else true) self inb out.
Proof.
  unfold processBlock. destruct add, (crossfade self); reflexivity.
Qed.

Lemma processBlock_flags (self : filter) (inb out : list F32.t) (add : bool) :
  crossfade (process self inb out add).1 = crossfade self /\
  active (process self inb out add).1 = active self.
Proof. rewrite processBlock_dispatch. apply processBlockImpl_flags. Qed.

Lemma processBlocks_flags (blocks : list (list F32.t * list F32.t * bool))
    (self : filter) :
  crossfade (processMany self blocks) = crossfade self /\
  active (processMany self blocks) = active self.
Proof.
  revert self. induction blocks as [|[[inb out] add] blocks IH]; intros self.
  - done.
  - simpl. destruct (IH (process self inb out add).1) as [-> ->].
    apply processBlock_flags.
Qed.

(** *** The crossfading path does not depend on the active filter *)

Lemma length_frame_at (buf : list F32.t) (i : nat) :
  length (frame_at CHANNELS buf i) =
  Nat.min CHANNELS (length buf - CHANNELS * i).
Proof. unfold frame_at. by rewrite length_take, length_drop. Qed.

Lemma length_store_frame (buf : list F32.t) (i : nat) (fr : list F32.t) :
  length (store_frame CHANNELS buf i fr) = length buf.
Proof. apply length_inserts. Qed.

(** A frame stored over a frame that was just stored at the same place
    hides it, when it is as long as the frame of the buffer. *)
Lemma store_frame_twice (buf : list F32.t) (i : nat) (y z : list F32.t) :
  length z = length (frame_at CHANNELS buf i) ->
  store_frame CHANNELS (store_frame CHANNELS buf i y) i z =
  store_frame CHANNELS buf i z.
Proof.
  intros Hz. rewrite length_frame_at in Hz.
  assert (take CHANNELS z = z) as Htz by (apply take_ge; lia).
  unfold store_frame. rewrite Htz.
  apply list_eq. intros j.
  destruct (decide (j < CHANNELS * i)%nat) as [Hlt|Hge].
  { by rewrite !list_lookup_inserts_lt by done. }
  destruct (decide (j < length buf)%nat) as [Hj|Hj].
  2:{ rewrite !lookup_ge_None_2; [done| |]; rewrite !length_inserts; lia. }
  destruct (decide (j < CHANNELS * i + length z)%nat) as [Hin|Hout].
  { rewrite !list_lookup_inserts; [done|lia|done|lia|]. by rewrite length_inserts. }
  rewrite !(list_lookup_inserts_ge _ _ z) by lia.
  apply list_lookup_inserts_ge. rewrite length_take. lia.
Qed.

(** With [ADD = false] and [CROSSFADE = true], one iteration leaves the
    same output and the same inactive filter whatever the active filter
    is, provided [tick] gives frames of [CHANNELS] samples. *)
Lemma processFrame_crossfade_ignores_active (inb : list F32.t) (i : nat)
    (act1 act2 inact : IIRFilter) (out : list F32.t) :
  (forall f fr, length (tick f fr).2 = CHANNELS) ->
  let r1 := processFrame CHANNELS tick false true inb i (act1, inact, out) in
  let r2 := processFrame CHANNELS tick false true inb i (act2, inact, out) in
  r1.1.2 = r2.1.2 /\ r1.2 = r2.2.
Proof.
  intros Hlen. unfold processFrame. simpl.
  destruct (tick act1 (frame_at CHANNELS inb i)) as [act1' y1].
  destruct (tick act2 (frame_at CHANNELS inb i)) as [act2' y2].
  pose proof (Hlen inact (frame_at CHANNELS inb i)) as Hcf.
  destruct (tick inact (frame_at CHANNELS inb i)) as [inact' cf].
  simpl in *. split; [done|].
  set (blend := zip_with _ cf _).
  assert (length blend = CHANNELS) as Hb.
  { subst blend. rewrite length_zip_with, length_replicate. lia. }
  assert (forall y,
    store_frame CHANNELS (store_frame CHANNELS out i y) i
      (zip_with (fun _ t => t)
                (frame_at CHANNELS (store_frame CHANNELS out i y) i) blend) =
    store_frame CHANNELS out i
      (take (length (frame_at CHANNELS out i)) blend)) as Hstore.
  { intros y.
    assert (zip_with (fun _ t : F32.t => t)
              (frame_at CHANNELS (store_frame CHANNELS out i y) i) blend =
            take (length (frame_at CHANNELS out i)) blend) as ->.
    { apply list_eq. intros j. rewrite lookup_zip_with.
      rewrite !length_frame_at.
      destruct (decide (j < Nat.min CHANNELS (length out - CHANNELS * i))%nat)
        as [Hj|Hj].
      - rewrite lookup_take_lt by done.
        destruct (lookup_lt_is_Some_2
                    (frame_at CHANNELS (store_frame CHANNELS out i y) i) j)
          as [o ->]; [rewrite length_frame_at, length_store_frame; lia|].
        simpl. by destruct (blend !! j).
      - rewrite lookup_take_ge by lia.
        rewrite (lookup_ge_None_2 (frame_at _ _ _)); [done|].
        rewrite length_frame_at, length_store_frame. lia. }
    apply store_frame_twice. rewrite length_take, length_frame_at. lia. }
  by rewrite !Hstore.
Qed.

Lemma processBlockImpl_crossfade_ignores_active (self1 self2 : filter)
    (inb out : list F32.t) :
  (forall f fr, length (tick f fr).2 = CHANNELS) ->
  active self1 = active self2 ->
  filters_get (filters self1) (Z.lxor (active self1) 1) =
  filters_get (filters self2) (Z.lxor (active self2) 1) ->
  (impl false true self1 inb out).2 = (impl false true self2 inb out).2.
Proof.
  intros Hlen Ha Hi. unfold processBlockImpl.
  rewrite <- Ha in Hi |- *. rewrite <- Hi.
  generalize (filters_get (filters self1) (active self1)).
  generalize (filters_get (filters self2) (active self1)).
  generalize (filters_get (filters self1) (Z.lxor (active self1) 1)).
  intros inact act2 act1.
  assert (forall l a1 a2 ina o,
    let r1 := foldl (fun st i => processFrame CHANNELS tick false true inb i st)
                    (a1, ina, o) l in
    let r2 := foldl (fun st i => processFrame CHANNELS tick false true inb i st)
                    (a2, ina, o) l in
    r1.1.2 = r2.1.2 /\ r1.2 = r2.2) as Hfold.
  { induction l as [|i l IH]; intros a1 a2 ina o; [done|]. cbn [foldl].
    destruct (processFrame_crossfade_ignores_active inb i a1 a2 ina o Hlen)
      as [H1 H2].
    destruct (processFrame CHANNELS tick false true inb i (a1, ina, o))
      as [[a1' ina1] o1].
    destruct (processFrame CHANNELS tick false true inb i (a2, ina, o))
      as [[a2' ina2] o2].
    cbn [fst snd] in H1, H2. subst ina2 o2. exact (IH a1' a2' ina1 o1). }
  destruct (Hfold (seq 0 (Z.to_nat config.BLOCK_SIZE)) act1 act2 inact out)
    as [_ H].
  destruct (foldl _ (act1, inact, out) _) as [[? ?] o1].
  destruct (foldl _ (act2, inact, out) _) as [[? ?] o2].
  done.
Qed.

(** C1. Once [configure] has set the crossfade flag, [processBlock] does
    not clear it and does not flip the active filter: after one block,
    and after any number of further blocks, the flag is still set and
    [active] is what it was before [configure]. The source means to stop
    crossfading after one block, but every branch before that statement
    returns. *)
Theorem processBlock_never_stops_crossfading (self : filter)
    (config : syz_BiquadConfig) (inb out : list F32.t) (add : bool)
    (blocks : list (list F32.t * list F32.t * bool)) :
  let configured := configure setParameters self config in
  let after_one := (process configured inb out add).1 in
  let after_more := processMany after_one blocks in
  crossfade configured = true /\
  crossfade after_one = true /\ active after_one = active self /\
  crossfade after_more = true /\ active after_more = active self.
Proof.
  intros configured after_one after_more.
  destruct (processBlock_flags configured inb out add) as [Hc Ha].
  destruct (processBlocks_flags blocks after_one) as [Hc' Ha'].
  subst after_more after_one. rewrite Hc', Ha', Hc, Ha. done.
Qed.

(** *** What [processBlockImpl] writes, and where *)

Lemma store_frame_lookup_outside (buf : list F32.t) (i : nat)
    (fr : list F32.t) (j : nat) :
  (j < CHANNELS * i \/ CHANNELS * i + CHANNELS <= j)%nat ->
  store_frame CHANNELS buf i fr !! j = buf !! j.
Proof.
  intros [H|H]; unfold store_frame.
  - by apply list_lookup_inserts_lt.
  - apply list_lookup_inserts_ge. rewrite length_take. lia.
Qed.

Lemma processFrame_outside (ADD CROSSFADE : bool) (inb : list F32.t) (i : nat)
    (act inact : IIRFilter) (out : list F32.t) (j : nat) :
  (j < CHANNELS * i \/ CHANNELS * i + CHANNELS <= j)%nat ->
  (processFrame CHANNELS tick ADD CROSSFADE inb i (act, inact, out)).2 !! j =
  out !! j.
Proof.
  intros Hj. unfold processFrame.
  destruct (tick act (frame_at CHANNELS inb i)) as [act' y].
  destruct (tick inact (frame_at CHANNELS inb i)) as [inact' cf].
  destruct ADD, CROSSFADE; simpl; by rewrite ?store_frame_lookup_outside.
Qed.

Lemma processFrame_length (ADD CROSSFADE : bool) (inb : list F32.t) (i : nat)
    (act inact : IIRFilter) (out : list F32.t) :
  length (processFrame CHANNELS tick ADD CROSSFADE inb i (act, inact, out)).2 =
  length out.
Proof.
  unfold processFrame.
  destruct (tick act (frame_at CHANNELS inb i)) as [act' y].
  destruct (tick inact (frame_at CHANNELS inb i)) as [inact' cf].
  destruct ADD, CROSSFADE; simpl; by rewrite ?length_store_frame.
Qed.

Lemma processFrames_outside (ADD CROSSFADE : bool) (inb : list F32.t)
    (l : list nat) (st : IIRFilter * IIRFilter * list F32.t) (j : nat) :
  (forall i, i ∈ l -> j < CHANNELS * i \/ CHANNELS * i + CHANNELS <= j)%nat ->
  let r := foldl (fun st i => processFrame CHANNELS tick ADD CROSSFADE inb i st)
                 st l in
  length r.2 = length st.2 /\ r.2 !! j = st.2 !! j.
Proof.
  revert st. induction l as [|i l IH]; intros [[act inact] out] Hl; [done|].
  cbn [foldl].
  pose proof (processFrame_outside ADD CROSSFADE inb i act inact out j) as Ho.
  pose proof (processFrame_length ADD CROSSFADE inb i act inact out) as Hlen.
  destruct (processFrame CHANNELS tick ADD CROSSFADE inb i (act, inact, out))
    as [[act' inact'] out'] eqn:E.
  cbn [snd] in *.
  destruct (IH (act', inact', out')) as [IH1 IH2].
  { intros i' Hi'. apply Hl. apply elem_of_cons. by right. }
  cbn [snd] in *. split; [congruence|].
  rewrite IH2. apply Ho, Hl, elem_of_cons. by left.
Qed.

(** [filters_get] after [filters_set] at the same index. *)
Lemma filters_get_set (fs : IIRFilter * IIRFilter) (i : Z) (f : IIRFilter) :
  filters_get (filters_set fs i f) i = f.
Proof. unfold filters_get, filters_set. by destruct (i =? 0). Qed.

Lemma filters_get_set_other (fs : IIRFilter * IIRFilter) (i : Z)
    (f : IIRFilter) :
  i = 0 \/ i = 1 ->
  filters_get (filters_set fs (Z.lxor i 1) f) i = filters_get fs i.
Proof. by intros [->| ->]. Qed.

(** Without crossfading, one iteration leaves the inactive filter alone;
    without adding as well, it leaves the output alone. *)
Lemma processFrame_no_crossfade (ADD : bool) (inb : list F32.t) (i : nat)
    (act inact : IIRFilter) (out : list F32.t) :
  let r := processFrame CHANNELS tick ADD false inb i (act, inact, out) in
  r.1.2 = inact /\ (ADD = false -> r.2 = out).
Proof.
  unfold processFrame.
  destruct (tick act (frame_at CHANNELS inb i)) as [act' y].
  destruct ADD; simpl; split; done.
Qed.

Lemma processFrames_no_crossfade (ADD : bool) (inb : list F32.t)
    (l : list nat) (act inact : IIRFilter) (out : list F32.t) :
  let r := foldl (fun st i => processFrame CHANNELS tick ADD false inb i st)
                 (act, inact, out) l in
  r.1.2 = inact /\ (ADD = false -> r.2 = out).
Proof.
  revert act out. induction l as [|i l IH]; intros act out; [done|].
  cbn [foldl].
  destruct (processFrame_no_crossfade ADD inb i act inact out) as [H1 H2].
  destruct (processFrame CHANNELS tick ADD false inb i (act, inact, out))
    as [[act' inact'] out'].
  cbn [fst snd] in *. subst inact'.
  destruct (IH act' out') as [IH1 IH2]. split; [done|].
  intros HA. rewrite (IH2 HA). by apply H2.
Qed.

Lemma frame_at_store_frame (buf : list F32.t) (i : nat) (y : list F32.t) :
  length y = CHANNELS ->
  frame_at CHANNELS (store_frame CHANNELS buf i y) i =
  take (length (frame_at CHANNELS buf i)) y.
Proof.
  intros Hy. rewrite length_frame_at. unfold frame_at, store_frame.
  rewrite (take_ge y) by lia.
  apply list_eq. intros j.
  destruct (decide (j < Nat.min CHANNELS (length buf - CHANNELS * i))%nat)
    as [Hj|Hj].
  - rewrite !lookup_take_lt by lia. rewrite lookup_drop.
    rewrite list_lookup_inserts by lia. f_equal. lia.
  - rewrite (lookup_take_ge y) by lia.
    apply lookup_ge_None_2.
    rewrite length_take, length_drop, length_inserts. lia.
Qed.

(** With [ADD] or [CROSSFADE], one iteration stores at frame [i] a frame
    that is computed from the filters and the input alone. *)
Lemma processFrame_writes (ADD CROSSFADE : bool) (inb : list F32.t) (i : nat)
    (act inact : IIRFilter) (o1 o2 : list F32.t) :
  ADD || CROSSFADE = true ->
  length (tick act (frame_at CHANNELS inb i)).2 = CHANNELS ->
  length (tick inact (frame_at CHANNELS inb i)).2 = CHANNELS ->
  length o1 = length o2 ->
  let r1 := processFrame CHANNELS tick ADD CROSSFADE inb i (act, inact, o1) in
  let r2 := processFrame CHANNELS tick ADD CROSSFADE inb i (act, inact, o2) in
  r1.1 = r2.1 /\
  exists z, length z = length (frame_at CHANNELS o1 i) /\
            r1.2 = store_frame CHANNELS o1 i z /\
            r2.2 = store_frame CHANNELS o2 i z.
Proof.
  intros HAC Hy Hcf Hlen. unfold processFrame.
  destruct (tick act (frame_at CHANNELS inb i)) as [act' y].
  destruct (tick inact (frame_at CHANNELS inb i)) as [inact' cf].
  cbn [snd] in Hy, Hcf.
  assert (length (frame_at CHANNELS o2 i) = length (frame_at CHANNELS o1 i))
    as Hfr by (rewrite !length_frame_at; lia).
  assert (forall (f : F32.t -> F32.t -> F32.t) (tmp : list F32.t),
    length tmp = CHANNELS ->
    let z := zip_with f (take (length (frame_at CHANNELS o1 i)) y) tmp in
    length z = length (frame_at CHANNELS o1 i) /\
    store_frame CHANNELS (store_frame CHANNELS o1 i y) i
      (zip_with f (frame_at CHANNELS (store_frame CHANNELS o1 i y) i) tmp) =
    store_frame CHANNELS o1 i z /\
    store_frame CHANNELS (store_frame CHANNELS o2 i y) i
      (zip_with f (frame_at CHANNELS (store_frame CHANNELS o2 i y) i) tmp) =
    store_frame CHANNELS o2 i z) as Hstore.
  { intros f tmp Htmp z.
    assert (length z = length (frame_at CHANNELS o1 i)) as Hz.
    { subst z. rewrite length_zip_with, length_take, length_frame_at. lia. }
    split; [done|].
    rewrite !frame_at_store_frame by done. rewrite Hfr. fold z.
    split; apply store_frame_twice; congruence. }
  destruct ADD, CROSSFADE; try discriminate HAC; simpl.
  - edestruct (Hstore (fun o t => F32.add o t)) as (Hz & H1 & H2);
      [|split; [done|eexists; split; [exact Hz|split; [exact H1|exact H2]]]].
    rewrite length_zip_with, length_replicate. lia.
  - edestruct (Hstore (fun o t => F32.add o t)) as (Hz & H1 & H2);
      [|split; [done|eexists; split; [exact Hz|split; [exact H1|exact H2]]]].
    by rewrite length_replicate.
  - edestruct (Hstore (fun _ t : F32.t => t)) as (Hz & H1 & H2);
      [|split; [done|eexists; split; [exact Hz|split; [exact H1|exact H2]]]].
    rewrite length_zip_with, length_replicate. lia.
Qed.

Lemma store_frame_agree (o1 o2 z : list F32.t) (i j : nat) :
  length o1 = length o2 ->
  length z = length (frame_at CHANNELS o1 i) ->
  (CHANNELS * i <= j < CHANNELS * i + CHANNELS)%nat ->
  store_frame CHANNELS o1 i z !! j = store_frame CHANNELS o2 i z !! j.
Proof.
  intros Hlen Hz Hj. rewrite length_frame_at in Hz. unfold store_frame.
  rewrite (take_ge z) by lia.
  destruct (decide (j < length o1)%nat) as [Hin|Hout].
  - rewrite !list_lookup_inserts by lia. done.
  - rewrite !lookup_ge_None_2; [done| |]; rewrite length_inserts; lia.
Qed.

Lemma processFrames_agree (ADD CROSSFADE : bool) (inb : list F32.t)
    (l : list nat) :
  ADD || CROSSFADE = true ->
  (forall f i, i ∈ l -> length (tick f (frame_at CHANNELS inb i)).2 = CHANNELS) ->
  forall (act inact : IIRFilter) (o1 o2 : list F32.t) (S : nat -> Prop),
    length o1 = length o2 ->
    (forall j, S j -> o1 !! j = o2 !! j) ->
    let r1 := foldl (fun st i => processFrame CHANNELS tick ADD CROSSFADE inb i st)
                    (act, inact, o1) l in
    let r2 := foldl (fun st i => processFrame CHANNELS tick ADD CROSSFADE inb i st)
                    (act, inact, o2) l in
    r1.1 = r2.1 /\ length r1.2 = length r2.2 /\
    forall j,
      S j \/ (exists i, i ∈ l /\ CHANNELS * i <= j < CHANNELS * i + CHANNELS)%nat ->
      r1.2 !! j = r2.2 !! j.
Proof.
  intros HAC. induction l as [|i l IH]; intros Htick act inact o1 o2 S Hlen HS.
  - simpl. split; [done|]. split; [done|]. intros j [Hj|(i & Hi & _)]; [auto|].
    by apply elem_of_nil in Hi.
  - cbn [foldl].
    destruct (processFrame_writes ADD CROSSFADE inb i act inact o1 o2 HAC)
      as (Hf & z & Hz & H1 & H2); [apply Htick, elem_of_cons; by left..|done|].
    destruct (processFrame CHANNELS tick ADD CROSSFADE inb i (act, inact, o1))
      as [[act1 inact1] o1'].
    destruct (processFrame CHANNELS tick ADD CROSSFADE inb i (act, inact, o2))
      as [[act2 inact2] o2'].
    cbn [fst snd] in Hf, H1, H2. injection Hf as <- <-. subst o1' o2'.
    destruct (IH (fun f i' Hi' => Htick f i' (proj2 (elem_of_cons _ _ _) (or_intror Hi')))
                act1 inact1 (store_frame CHANNELS o1 i z)
                (store_frame CHANNELS o2 i z)
                (fun j => S j \/ (CHANNELS * i <= j < CHANNELS * i + CHANNELS)%nat))
      as (IH1 & IH2 & IH3).
    + by rewrite !length_store_frame.
    + intros j Hj.
      destruct (decide (CHANNELS * i <= j < CHANNELS * i + CHANNELS)%nat)
        as [Hin|Hout].
      * by apply store_frame_agree.
      * destruct Hj as [Hj|Hj]; [|done].
        rewrite !store_frame_lookup_outside by lia. by apply HS.
    + split; [done|]. split; [done|]. intros j Hj. apply IH3.
      destruct Hj as [Hj|(i' & Hi' & Hj)]; [by left; left|].
      apply elem_of_cons in Hi' as [->|Hi']; [by left; right|].
      right. by exists i'.
Qed.

(** X1. [processBlock] overwrites the output: whatever the buffer held
    before the call, and also with [add = true], the filters it leaves and
    the [CHANNELS * BLOCK_SIZE] samples it renders are the same, as long as
    [tick] gives frames of [CHANNELS] samples. Nothing of the previous
    content is added to. *)
Theorem processBlock_overwrites_output (self : filter)
    (inb out1 out2 : list F32.t) (add : bool) :
  (forall f i, (i < BLOCK_SIZE)%nat ->
               length (tick f (frame_at CHANNELS inb i)).2 = CHANNELS) ->
  length out1 = length out2 ->
  (process self inb out1 add).1 = (process self inb out2 add).1 /\
  take (CHANNELS * BLOCK_SIZE) (process self inb out1 add).2 =
  take (CHANNELS * BLOCK_SIZE) (process self inb out2 add).2.
Proof.
  intros Htick Hlen. rewrite !processBlock_dispatch.
  set (CF := if add then crossfade self else true).
  assert (add || CF = true) as HAC by (subst CF; by destruct add).
  unfold processBlockImpl.
  destruct (processFrames_agree add CF inb (seq 0 (Z.to_nat config.BLOCK_SIZE))
              HAC) with
      (act := filters_get (filters self) (active self))
      (inact := filters_get (filters self) (Z.lxor (active self) 1))
      (o1 := out1) (o2 := out2) (S := fun _ : nat => False)
    as (Hf & Hl & Hj); [|done|done|].
  { intros f i Hi. apply Htick. apply elem_of_seq in Hi. unfold BLOCK_SIZE. lia. }
  destruct (foldl _ (_, _, out1) _) as [[a1 i1] o1].
  destruct (foldl _ (_, _, out2) _) as [[a2 i2] o2].
  cbn [fst snd] in *. injection Hf as <- <-. split; [done|].
  apply list_eq. intros j.
  destruct (decide (j < CHANNELS * BLOCK_SIZE)%nat) as [Hlt|Hge].
  - rewrite !lookup_take_lt by done. apply Hj. right.
    assert (CHANNELS <> 0)%nat as HC by (intros ->; lia).
    exists (j `div` CHANNELS)%nat. split.
    + apply elem_of_seq. split; [lia|]. simpl.
      apply Nat.Div0.div_lt_upper_bound. unfold BLOCK_SIZE in Hlt. lia.
    + pose proof (Nat.div_mod j CHANNELS HC) as Hdm.
      pose proof (Nat.mod_upper_bound j CHANNELS HC). lia.
  - by rewrite !lookup_take_ge by lia.
Qed.

(** X2. The implementation without adding and without crossfading never
    writes the output buffer: the active filter ticks into a temporary
    that is not copied out. *)
Theorem processBlockImpl_plain_leaves_output (self : filter)
    (inb out : list F32.t) :
  (impl false false self inb out).2 = out.
Proof.
  unfold processBlockImpl.
  destruct (processFrames_no_crossfade false inb
              (seq 0 (Z.to_nat config.BLOCK_SIZE))
              (filters_get (filters self) (active self))
              (filters_get (filters self) (Z.lxor (active self) 1)) out)
    as [_ H].
  destruct (foldl _ _ _) as [[act inact] out']. by apply H.
Qed.

(** X3. [processBlock] keeps the length of the output buffer and leaves
    every sample from index [CHANNELS * BLOCK_SIZE] on as it was. *)
Theorem processBlock_keeps_rest (self : filter) (inb out : list F32.t)
    (add : bool) :
  length (process self inb out add).2 = length out /\
  forall j : nat, (CHANNELS * BLOCK_SIZE <= j)%nat ->
                  (process self inb out add).2 !! j = out !! j.
Proof.
  rewrite processBlock_dispatch. unfold processBlockImpl.
  set (CF := if add then crossfade self else true).
  set (st := (filters_get (filters self) (active self),
              filters_get (filters self) (Z.lxor (active self) 1), out)).
  assert (forall j, (CHANNELS * BLOCK_SIZE <= j)%nat ->
            let r := foldl (fun st i => processFrame CHANNELS tick add CF inb i st)
                           st (seq 0 (Z.to_nat config.BLOCK_SIZE)) in
            length r.2 = length out /\ r.2 !! j = out !! j) as H.
  { intros j Hj. apply (processFrames_outside add CF inb _ st j).
    intros i Hi. apply elem_of_seq in Hi. right. unfold BLOCK_SIZE in Hj. nia. }
  destruct (H (CHANNELS * BLOCK_SIZE)%nat (le_n _)) as [Hlen _].
  destruct (foldl _ st _) as [[act inact] out'] eqn:E. cbn [snd] in *.
  split; [done|]. intros j Hj. by destruct (H j Hj).
Qed.

(** X4. Without crossfading the inactive filter is not ticked: after
    [processBlockImpl<ADD, false>] the filter at index [active ^ 1] is the
    one that was there. *)
Theorem processBlockImpl_no_crossfade_keeps_inactive (ADD : bool)
    (self : filter) (inb out : list F32.t) :
  filters_get (filters (impl ADD false self inb out).1)
              (Z.lxor (active self) 1) =
  filters_get (filters self) (Z.lxor (active self) 1).
Proof.
  unfold processBlockImpl.
  destruct (processFrames_no_crossfade ADD inb
              (seq 0 (Z.to_nat config.BLOCK_SIZE))
              (filters_get (filters self) (active self))
              (filters_get (filters self) (Z.lxor (active self) 1)) out)
    as [H _].
  destruct (foldl _ _ _) as [[act inact] out']. cbn [fst snd] in *. subst inact.
  apply filters_get_set.
Qed.

(** X5. Whatever calls a filter receives, [active] keeps its value, and
    the crossfade flag is set exactly when it was set before or one of the
    calls was [configure]: every [configure] writes the same filter of the
    pair, and the filter that renders alone is never the configured one. *)
Theorem biquad_calls_flags (self : filter) (cs : list biquad_call) :
  active (biquad_calls CHANNELS setParameters tick self cs) = active self /\
  crossfade (biquad_calls CHANNELS setParameters tick self cs) =
  crossfade self || existsb is_configure cs.
Proof.
  revert self. induction cs as [|c cs IH]; intros self.
  - simpl. by rewrite orb_false_r.
  - unfold biquad_calls in *. cbn [foldl existsb].
    destruct (IH (biquad_apply CHANNELS setParameters tick self c)) as [-> ->].
    destruct c as [config|inb out add]; simpl.
    + split; [done|]. by rewrite orb_true_r.
    + destruct (processBlock_flags self inb out add) as [-> ->]. done.
Qed.

End BiquadFacts.

(** C2. With [add = false], [processBlock] runs the crossfading
    implementation whether the crossfade flag is set or not. On a freshly
    constructed mono filter (both filters the identity, flag clear), a
    constant input of 1.0 comes out as the ramp [1 - i / BLOCK_SIZE]
    instead of 1.0, the output of the active filter; the implementation
    without adding and crossfading, which is what should have run, is a
    different function (it leaves the output buffer as it was). *)
Theorem processBlock_no_add_always_crossfades :
  (forall (CHANNELS : nat) (IIRFilter : Type)
          (tick : IIRFilter -> list F32.t -> IIRFilter * list F32.t)
          (self : ConcreteBiquadFilter IIRFilter) (inb out : list F32.t),
      processBlock CHANNELS tick self inb out false =
      processBlockImpl CHANNELS tick false true self inb out) /\
  let self := GainFilter.fresh in
  let inb := GainFilter.constant F32.one in
  let out := GainFilter.constant F32.zero in
  let active_filter := filters_get (filters self) (active self) in
  crossfade self = false /\
  (GainFilter.tick active_filter [F32.one]).2 = [F32.one] /\
  (processBlock 1 GainFilter.tick self inb out false).2 =
    map (fun i => F32.sub F32.one (F32.mul (F32.of_Z (Z.of_nat i)) gain_inv))
        (seq 0 BLOCK_SIZE) /\
  (processBlock 1 GainFilter.tick self inb out false).2 !! 128%nat =
    Some GainFilter.half /\
  (processBlockImpl 1 GainFilter.tick false false self inb out).2 = out.
Proof.
  split.
  - intros. apply processBlock_dispatch.
  - vm_compute. done.
Qed.

(** C4. While the crossfade flag is set the active filter's output does
    not reach the blend. A fresh mono filter is configured to multiply by
    3, so the inactive filter gives 3.0 and the active one 1.0 on a
    constant input of 1.0. Without adding, frame [i] of the output is
    [3 * w1 + 0 * w2] for [w2 = i / BLOCK_SIZE] and [w1 = 1 - w2], 1.5 at
    frame 128 where the blend of the two outputs is 2.0. With adding onto
    an output buffer of 0.25, frame 128 is 2.5 (the active output plus
    1.5) where the blend summed onto the buffer is 2.25. *)
Theorem processBlock_crossfade_drops_active :
  let self := configure GainFilter.setParameters GainFilter.fresh
                (GainFilter.scale 3) in
  let inb := GainFilter.constant F32.one in
  let active_out := F32.one in
  let inactive_out := F32.of_Z 3 in
  let no_add := (processBlock 1 GainFilter.tick self inb
                   (GainFilter.constant F32.zero) false).2 in
  let added := (processBlock 1 GainFilter.tick self inb
                  (GainFilter.constant GainFilter.quarter) true).2 in
  crossfade self = true /\
  (GainFilter.tick (filters_get (filters self) (active self)) [F32.one]).2
    = [active_out] /\
  (GainFilter.tick (filters_get (filters self) (Z.lxor (active self) 1))
     [F32.one]).2 = [inactive_out] /\
  no_add =
    map (fun i =>
           let w2 := F32.mul (F32.of_Z (Z.of_nat i)) gain_inv in
           let w1 := F32.sub F32.one w2 in
           F32.add (F32.mul inactive_out w1) (F32.mul F32.zero w2))
        (seq 0 BLOCK_SIZE) /\
  no_add !! 128%nat = Some (F32.div (F32.of_Z 3) (F32.of_Z 2)) /\
  crossfade_blend 128 inactive_out active_out = F32.of_Z 2 /\
  added !! 128%nat = Some (F32.div (F32.of_Z 5) (F32.of_Z 2)) /\
  F32.add GainFilter.quarter (crossfade_blend 128 inactive_out active_out) =
    F32.div (F32.of_Z 9) (F32.of_Z 4).
Proof. vm_compute. done. Qed.

(** ** Property dispatch *)

Section PropertyFacts.
Variable CExposable : Type.
Variable Cls : Type.
Variable instance_of : CExposable -> Cls -> bool.

Abbreviation pclass := (property_class Cls).
Abbreviation pvalue := (PropertyValue CExposable).

(** The answer of [hasProperty] is decided by the class's own list. *)
Lemma hasProperty_own_list (props : list (property_decl Cls)) (base : pclass)
    (property : Z) :
  hasProperty (PropertyClass props base) property =
  bool_decide (is_Some (switch_case props property)).
Proof. simpl. destruct (switch_case props property); done. Qed.

(** [validateProperty] chains to the base class until a class declares
    the property, and checks the value against that declaration. *)
Lemma validateProperty_declared (c : pclass) (property : Z)
    (d : property_decl Cls) (value : pvalue) :
  declared c property = Some d ->
  validateProperty instance_of c property value =
  if bool_decide (value_kind value = decl_kind d)
  then checker instance_of d value
  else Throw EPropertyType.
Proof.
  induction c as [|props base IH]; simpl; [done|].
  destruct (switch_case props property) as [d'|]; [|exact IH].
  intros [= ->]. done.
Qed.

Lemma validateProperty_undeclared (c : pclass) (property : Z) (value : pvalue) :
  declared c property = None ->
  validateProperty instance_of c property value =
  Throw EPropertyDoesNotExist.
Proof.
  induction c as [|props base IH]; simpl; [done|].
  destruct (switch_case props property); [done|exact IH].
Qed.

End PropertyFacts.

(** C3. [hasProperty] answers for the class's own property list only: in
    the default case the answer of the base class is computed and dropped,
    and the method returns false. A panned source derives from the source
    class, which declares the gain; [hasProperty] of the gain is false on
    the panned source, true on the source class itself, and the other
    dispatch methods do reach the declaration of the base class. *)
Theorem hasProperty_misses_base_class :
  (forall (Cls : Type) (props : list (property_decl Cls))
          (base : property_class Cls) (property : Z),
      hasProperty (PropertyClass props base) property =
      bool_decide (is_Some (switch_case props property))) /\
  hasProperty PropertyRig.Source_class SYZ_P_GAIN = true /\
  hasProperty PropertyRig.PannedSource_class SYZ_P_GAIN = false /\
  declared PropertyRig.PannedSource_class SYZ_P_GAIN =
    Some (DOUBLE_P SYZ_P_GAIN F64.zero PropertyRig.double_max) /\
  getProperty PropertyRig.PannedSource_class
    (obj_members PropertyRig.panned_source) SYZ_P_GAIN =
    Ok (PV_double F64.one) /\
  validateProperty PropertyRig.instance_of PropertyRig.PannedSource_class
    SYZ_P_GAIN (PV_double F64.one) = Ok tt.
Proof.
  split; [intros; apply hasProperty_own_list|].
  vm_compute. done.
Qed.

(** C6. For a property declared along the class chain, [validateProperty]
    throws [EPropertyType] when the value holds another alternative than
    the declaration asks for, [ERange] when an int or double value is
    below [min] or above [max], and [EHandleType] when the value is an
    object that is not an instance of the required class. An external set
    whose validation throws reports that error and leaves the object as
    it was, so the next get returns what it returned before. *)
Theorem validateProperty_rejects (CExposable Cls : Type)
    (instance_of : CExposable -> Cls -> bool) (c : property_class Cls)
    (property : Z) (d : property_decl Cls) (value : PropertyValue CExposable) :
  declared c property = Some d ->
  (value_kind value <> decl_kind d ->
   validateProperty instance_of c property value = Throw EPropertyType) /\
  (forall p min max x,
      d = INT_P p min max -> value = PV_int x -> x < min \/ max < x ->
      validateProperty instance_of c property value = Throw ERange) /\
  (forall p min max x,
      d = DOUBLE_P p min max -> value = PV_double x ->
      F64.ltb x min = true \/ F64.ltb max x = true ->
      validateProperty instance_of c property value = Throw ERange) /\
  (forall p cls o,
      d = OBJECT_P p cls -> value = PV_object (Some o) ->
      instance_of o cls = false ->
      validateProperty instance_of c property value = Throw EHandleType) /\
  (forall (obj : object CExposable Cls) (e : error),
      obj_class obj = c ->
      validateProperty instance_of c property value = Throw e ->
      let r := Context_setProperty instance_of obj property value in
      r.1 = Some e /\ r.2 = obj /\
      getProperty (obj_class r.2) (obj_members r.2) property =
      getProperty (obj_class obj) (obj_members obj) property).
Proof.
  intros Hd.
  pose proof (validateProperty_declared _ _ instance_of c property d value Hd)
    as Hv.
  split; [|split; [|split; [|split]]].
  - intros Hk. rewrite Hv. rewrite bool_decide_eq_false_2; done.
  - intros p min max x -> -> Hx. rewrite Hv. simpl.
    destruct (x <? min) eqn:E1; [done|].
    destruct (x >? max) eqn:E2; [done|]. lia.
  - intros p min max x -> -> Hx. rewrite Hv. simpl.
    destruct Hx as [-> | ->]; [done|]. by rewrite orb_true_r.
  - intros p cls o -> -> Ho. rewrite Hv. simpl. by rewrite Ho.
  - intros obj e Hc He r. subst r. unfold Context_setProperty.
    rewrite Hc, He. simpl. rewrite Hc. done.
Qed.

(** A gain of -1.0 on a panned source whose gain is 1.0; an int for the
    buffer of a generator; looping set to 2; a generator for the buffer of
    a generator. *)
Lemma validateProperty_rejects_witness :
  (let value := PV_double PropertyRig.minus_one in
   let r := Context_setProperty PropertyRig.instance_of
              PropertyRig.panned_source SYZ_P_GAIN value in
   validateProperty PropertyRig.instance_of PropertyRig.PannedSource_class
     SYZ_P_GAIN value = Throw ERange /\
   r.1 = Some ERange /\ r.2 = PropertyRig.panned_source /\
   getProperty (obj_class r.2) (obj_members r.2) SYZ_P_GAIN =
     Ok (PV_double F64.one)) /\
  validateProperty PropertyRig.instance_of PropertyRig.BufferGenerator_class
    SYZ_P_BUFFER (PV_int 3) = Throw EPropertyType /\
  validateProperty PropertyRig.instance_of PropertyRig.BufferGenerator_class
    SYZ_P_LOOPING (PV_int 2) = Throw ERange /\
  validateProperty PropertyRig.instance_of PropertyRig.BufferGenerator_class
    SYZ_P_BUFFER
    (PV_object (Some (PropertyRig.mkExposable 5 PropertyRig.Generator))) =
    Throw EHandleType.
Proof.
  split; [|split; [|split]].
  - destruct (validateProperty_rejects _ _ PropertyRig.instance_of
                PropertyRig.PannedSource_class SYZ_P_GAIN
                (DOUBLE_P SYZ_P_GAIN F64.zero PropertyRig.double_max)
                (PV_double PropertyRig.minus_one) eq_refl)
      as (_ & _ & Hrange & _ & Hset).
    assert (Hv := Hrange _ _ _ _ eq_refl eq_refl (or_introl eq_refl)).
    destruct (Hset PropertyRig.panned_source ERange eq_refl Hv)
      as (H1 & H2 & H3).
    split; [exact Hv|]. split; [exact H1|]. split; [exact H2|].
    rewrite H3. vm_compute. reflexivity.
  - destruct (validateProperty_rejects _ _ PropertyRig.instance_of
                PropertyRig.BufferGenerator_class SYZ_P_BUFFER
                (OBJECT_P SYZ_P_BUFFER PropertyRig.Buffer)
                (PV_int 3) eq_refl) as (Htype & _).
    apply Htype. vm_compute. discriminate.
  - destruct (validateProperty_rejects PropertyRig.exposable _
                PropertyRig.instance_of
                PropertyRig.BufferGenerator_class SYZ_P_LOOPING
                (INT_P SYZ_P_LOOPING 0 1)
                (PV_int 2) eq_refl) as (_ & Hrange & _).
    apply (Hrange _ _ _ _ eq_refl eq_refl). right. reflexivity.
  - destruct (validateProperty_rejects _ _ PropertyRig.instance_of
                PropertyRig.BufferGenerator_class SYZ_P_BUFFER
                (OBJECT_P SYZ_P_BUFFER PropertyRig.Buffer)
                (PV_object (Some (PropertyRig.mkExposable 5 PropertyRig.Generator)))
                eq_refl) as (_ & _ & _ & Hobj & _).
    apply (Hobj _ _ _ eq_refl eq_refl). reflexivity.
Defined.

(** ** The filter-property C API *)

(** C8. [syz_designBiquadLowpass] writes to [*filter] the conversion of
    [designAudioEqLowpass(frequency / SR, q)] and returns 0: what it
    leaves in [*filter] depends on [frequency] and [q] alone, not on what
    [*filter] held before, so two calls with the same arguments give the
    same six coefficients. *)
Theorem syz_designBiquadLowpass_deterministic
    (designAudioEqLowpass : F64.t -> F64.t -> BiquadFilterDef)
    (filter1 filter2 : syz_BiquadConfig) (frequency q : F64.t) :
  syz_designBiquadLowpass designAudioEqLowpass filter1 frequency q =
  syz_designBiquadLowpass designAudioEqLowpass filter2 frequency q /\
  let def := designAudioEqLowpass (F64.div frequency (F64.of_Z 44100)) q in
  syz_designBiquadLowpass designAudioEqLowpass filter1 frequency q =
  (0, {| b0 := (num_coefs def).1.1; b1 := (num_coefs def).1.2;
         b2 := (num_coefs def).2;
         a1 := (den_coefs def).1; a2 := (den_coefs def).2;
         gain := def_gain def |}).
Proof. split; reflexivity. Qed.

(** ** Sources *)

Section SourceFacts.
Variable World : Type.
Variable alive : World -> gen_ptr -> bool.
Variable getChannels : World -> gen_ptr -> nat.
Variable run : World -> gen_ptr -> list F32.t -> World * list F32.t.
Variable mixChannels : nat -> list F32.t -> nat -> list F32.t -> nat -> list F32.t.
Variable Pausable : Type.
Variable isPaused : Pausable -> bool.
Variable shouldIncorporatePausableGain : Pausable -> bool.
Variable getPausableGain : Pausable -> F64.t.
Variable tickPausable : Pausable -> Pausable.
Variable GainProperty : Type.
Variable acquireGain : GainProperty -> bool * F64.t * GainProperty.
Variable FadeDriver : Type.
Variable setValue : FadeDriver -> N -> F64.t -> FadeDriver.
Variable drive : FadeDriver -> N -> nat -> F32.t.

Abbreviation source := (Source Pausable GainProperty FadeDriver).
Abbreviation run_all := (run_generators alive getChannels run mixChannels).
Abbreviation fill :=
  (fillBlock alive getChannels run mixChannels isPaused
     shouldIncorporatePausableGain getPausableGain tickPausable acquireGain
     setValue drive).

(** *** The weak vector *)

Lemma lock_Some (w : World) (i x : gen_ptr) :
  lock alive w i = Some x <-> alive w i = true /\ i = x.
Proof.
  unfold lock. destruct (alive w i); split.
  - by intros [= ->].
  - by intros [_ ->].
  - done.
  - by intros [? _].
Qed.

Lemma weak_vector_contains_true (w : World) (v : list gen_ptr) (x : gen_ptr) :
  weak_vector_contains alive w v x = true <-> x ∈ v /\ alive w x = true.
Proof.
  unfold weak_vector_contains. induction v as [|i v IH]; simpl.
  - split; [done|]. intros [H _]. by apply elem_of_nil in H.
  - rewrite orb_true_iff, bool_decide_eq_true, lock_Some, IH, elem_of_cons.
    split.
    + intros [[Hi ->]|[Hv Hx]]; auto.
    + intros [[->|Hv] Hx]; auto.
Qed.

Lemma weak_vector_contains_false (w : World) (v : list gen_ptr) (x : gen_ptr) :
  alive w x = true ->
  weak_vector_contains alive w v x = false <-> x ∉ v.
Proof.
  intros Hx. rewrite <- not_true_iff_false, weak_vector_contains_true.
  split; [intros Hn Hin; by apply Hn|intros Hn [Hin _]; by apply Hn].
Qed.

Lemma find_generator_lookup (w : World) (v : list gen_ptr) (x : gen_ptr)
    (k : nat) :
  alive w x = true -> x ∈ v ->
  exists idx, find_generator alive w v x k = (k + idx)%nat /\ v !! idx = Some x.
Proof.
  intros Hx. revert k. induction v as [|i v IH]; intros k Hin.
  - by apply elem_of_nil in Hin.
  - simpl. case_bool_decide as Hl.
    + apply lock_Some in Hl as [_ ->]. exists 0%nat. split; [lia|done].
    + apply elem_of_cons in Hin as [->|Hin].
      * exfalso. apply Hl. by apply lock_Some.
      * destruct (IH (S k) Hin) as (idx & -> & Hidx).
        exists (S idx). split; [lia|done].
Qed.

(** Swapping an element with the last one and dropping the last one:
    what is left at each index. *)
Lemma swap_remove_lookup {A : Type} (v : list A) (index k : nat) :
  (index < length v)%nat -> (k < length v - 1)%nat ->
  take (length v - 1) (vec_swap v (length v - 1) index) !! k =
  if decide (k = index) then v !! (length v - 1)%nat else v !! k.
Proof.
  intros Hi Hk. unfold vec_swap.
  destruct (lookup_lt_is_Some_2 v (length v - 1)%nat) as [a Ha]; [lia|].
  destruct (lookup_lt_is_Some_2 v index Hi) as [b Hb].
  rewrite Ha, Hb. rewrite lookup_take_lt by done.
  rewrite list_lookup_insert_ne by lia.
  case_decide as Hd.
  - subst k. by rewrite list_lookup_insert_eq.
  - by rewrite list_lookup_insert_ne.
Qed.

Lemma swap_remove_elem {A : Type} (v : list A) (index : nat) (x : A) :
  (index < length v)%nat ->
  x ∈ take (length v - 1) (vec_swap v (length v - 1) index) ->
  exists k, k <> index /\ v !! k = Some x.
Proof.
  intros Hi Hin. apply list_elem_of_lookup in Hin as [k Hk].
  assert (k < length v - 1)%nat as Hlt.
  { apply lookup_lt_Some in Hk. rewrite length_take in Hk. lia. }
  rewrite swap_remove_lookup in Hk by done.
  case_decide; [exists (length v - 1)%nat|exists k]; split; try done. lia.
Qed.

Lemma swap_remove_NoDup {A : Type} (v : list A) (index : nat) :
  (index < length v)%nat -> NoDup v ->
  NoDup (take (length v - 1) (vec_swap v (length v - 1) index)).
Proof.
  intros Hi Hv. apply NoDup_alt. intros i j x Hxi Hxj.
  assert (i < length v - 1)%nat as Hil.
  { apply lookup_lt_Some in Hxi. rewrite length_take in Hxi. lia. }
  assert (j < length v - 1)%nat as Hjl.
  { apply lookup_lt_Some in Hxj. rewrite length_take in Hxj. lia. }
  rewrite swap_remove_lookup in Hxi, Hxj by done.
  rewrite NoDup_alt in Hv.
  repeat case_decide; try lia.
  - pose proof (Hv _ _ _ Hxi Hxj). lia.
  - pose proof (Hv _ _ _ Hxi Hxj). lia.
  - exact (Hv _ _ _ Hxi Hxj).
Qed.

(** *** Adding and removing generators *)

Lemma addGenerator_generators (w : World) (self : source) (g : gen_ptr) :
  alive w g = true ->
  generators (addGenerator alive w self g) =
  if bool_decide (g ∈ generators self) then generators self
  else generators self ++ [g].
Proof.
  intros Hg. unfold addGenerator, hasGenerator.
  destruct (weak_vector_contains alive w (generators self) g) eqn:Hc.
  - apply weak_vector_contains_true in Hc as [Hin _].
    by rewrite bool_decide_eq_true_2.
  - apply weak_vector_contains_false in Hc; [|done].
    by rewrite bool_decide_eq_false_2.
Qed.

Lemma addGenerator_elem (w : World) (self : source) (g : gen_ptr) :
  alive w g = true -> g ∈ generators (addGenerator alive w self g).
Proof.
  intros Hg. rewrite addGenerator_generators by done.
  case_bool_decide; [done|]. apply elem_of_app. right. by apply list_elem_of_singleton.
Qed.

Lemma addGenerator_NoDup (w : World) (self : source) (g : gen_ptr) :
  alive w g = true -> NoDup (generators self) ->
  NoDup (generators (addGenerator alive w self g)).
Proof.
  intros Hg Hv. rewrite addGenerator_generators by done.
  case_bool_decide as Hin; [done|].
  apply NoDup_app. split; [done|]. split; [|apply NoDup_singleton].
  intros x Hx Hxg. apply list_elem_of_singleton in Hxg. by subst.
Qed.

(** A generator that is attached stays attached once, however often it
    is added. *)
Lemma addGenerator_present (w : World) (self : source) (g : gen_ptr) :
  alive w g = true -> g ∈ generators self ->
  addGenerator alive w self g = self.
Proof.
  intros Hg Hin. unfold addGenerator, hasGenerator.
  by rewrite (proj2 (weak_vector_contains_true w _ g)).
Qed.

Lemma addGenerator_again (w : World) (self : source) (g : gen_ptr) (n : nat) :
  alive w g = true ->
  Nat.iter (S n) (fun s => addGenerator alive w s g) self =
  addGenerator alive w self g.
Proof.
  intros Hg. induction n as [|n IH]; [done|].
  change (Nat.iter (S (S n)) ?f ?x) with (f (Nat.iter (S n) f x)).
  rewrite IH. apply addGenerator_present; [done|]. by apply addGenerator_elem.
Qed.

(** What [removeGenerator] does to the vector of a source that holds the
    generator: the first weak reference to it is overwritten by the last
    element and the vector shrinks by one. *)
Lemma removeGenerator_generators (w : World) (self : source) (g : gen_ptr) :
  alive w g = true -> g ∈ generators self ->
  exists index,
    generators self !! index = Some g /\
    generators (removeGenerator alive w self g) =
    take (length (generators self) - 1)
         (vec_swap (generators self) (length (generators self) - 1) index).
Proof.
  intros Hg Hin. unfold removeGenerator, hasGenerator.
  rewrite bool_decide_eq_false_2.
  2:{ intros Hnil. rewrite Hnil in Hin. by apply elem_of_nil in Hin. }
  rewrite (proj2 (weak_vector_contains_true w _ g)) by done. simpl.
  destruct (find_generator_lookup w (generators self) g 0 Hg Hin)
    as (index & -> & Hidx).
  by exists index.
Qed.

Lemma removeGenerator_absent (w : World) (self : source) (g : gen_ptr) :
  g ∉ generators self -> removeGenerator alive w self g = self.
Proof.
  intros Hin. unfold removeGenerator, hasGenerator.
  case_bool_decide; [done|].
  destruct (weak_vector_contains alive w (generators self) g) eqn:Hc; [|done].
  apply weak_vector_contains_true in Hc as [? _]. done.
Qed.

Lemma removeGenerator_not_elem (w : World) (self : source) (g : gen_ptr) :
  alive w g = true -> NoDup (generators self) ->
  g ∉ generators (removeGenerator alive w self g).
Proof.
  intros Hg Hv.
  destruct (decide (g ∈ generators self)) as [Hin|Hin].
  - destruct (removeGenerator_generators w self g Hg Hin) as (index & Hidx & ->).
    intros Hg'. apply swap_remove_elem in Hg' as (k & Hk & Hkg).
    + rewrite NoDup_alt in Hv. by apply Hk, (Hv k index g).
    + by apply lookup_lt_Some in Hidx.
  - by rewrite removeGenerator_absent.
Qed.

Lemma removeGenerator_NoDup (w : World) (self : source) (g : gen_ptr) :
  alive w g = true -> NoDup (generators self) ->
  NoDup (generators (removeGenerator alive w self g)).
Proof.
  intros Hg Hv.
  destruct (decide (g ∈ generators self)) as [Hin|Hin].
  - destruct (removeGenerator_generators w self g Hg Hin) as (index & Hidx & ->).
    apply swap_remove_NoDup; [|done]. by apply lookup_lt_Some in Hidx.
  - by rewrite removeGenerator_absent.
Qed.

(** Adding a generator that was not attached and removing it again
    restores the vector. *)
Lemma removeGenerator_addGenerator_fresh (w : World) (self : source)
    (g : gen_ptr) :
  alive w g = true -> g ∉ generators self ->
  generators (removeGenerator alive w (addGenerator alive w self g) g) =
  generators self.
Proof.
  intros Hg Hin.
  pose proof (addGenerator_generators w self g Hg) as Hadd.
  rewrite bool_decide_eq_false_2 in Hadd by done.
  destruct (removeGenerator_generators w (addGenerator alive w self g) g Hg)
    as (index & Hidx & ->); [by apply addGenerator_elem|].
  rewrite Hadd in *. 
  assert (index = length (generators self)) as ->.
  { destruct (decide (index < length (generators self))%nat) as [Hlt|Hge].
    - rewrite lookup_app_l in Hidx by done.
      apply list_elem_of_lookup_2 in Hidx. done.
    - apply lookup_lt_Some in Hidx. rewrite length_app in Hidx. simpl in Hidx. lia. }
  rewrite length_app. simpl.
  replace (length (generators self) + 1 - 1)%nat with (length (generators self)) by lia.
  unfold vec_swap. rewrite Hidx.
  rewrite !list_insert_id by (by rewrite ?list_insert_id).
  by rewrite take_app_length.
Qed.

(** *** Running the generators *)

Lemma run_generator_events (channels : nat) (g : gen_ptr) (st : RunState World) :
  rs_events (run_generator getChannels run mixChannels channels g st) =
  rs_events st ++
  (if (getChannels (rs_world st) g =? 0)%nat then [] else [EvRun g]).
Proof.
  unfold run_generator.
  destruct (getChannels (rs_world st) g =? 0)%nat; [by rewrite app_nil_r|].
  destruct (getChannels (rs_world st) g =? channels)%nat;
    destruct (run (rs_world st) g _); done.
Qed.

Lemma run_generator_silent (channels : nat) (g : gen_ptr) (st : RunState World) :
  getChannels (rs_world st) g = 0%nat ->
  run_generator getChannels run mixChannels channels g st = st.
Proof. intros H. unfold run_generator. by rewrite H. Qed.

Lemma run_all_cons (channels : nat) (g : gen_ptr) (v : list gen_ptr)
    (st : RunState World) :
  run_all channels (g :: v) st =
  if alive (rs_world st) g then
    (g :: (run_all channels v
             (run_generator getChannels run mixChannels channels g st)).1,
     (run_all channels v
        (run_generator getChannels run mixChannels channels g st)).2)
  else run_all channels v st.
Proof.
  unfold run_generators, lock. simpl. unfold lock.
  destruct (alive (rs_world st) g); [|done].
  by destruct (weak_vector_iterate_removing _ _ _ _ _).
Qed.

Lemma run_all_app (channels : nat) (l1 l2 : list gen_ptr) (st : RunState World) :
  run_all channels (l1 ++ l2) st =
  ((run_all channels l1 st).1 ++
     (run_all channels l2 (run_all channels l1 st).2).1,
   (run_all channels l2 (run_all channels l1 st).2).2).
Proof.
  revert st. induction l1 as [|g l1 IH]; intros st.
  - simpl. by destruct (run_all channels l2 st).
  - change ((g :: l1) ++ l2) with (g :: (l1 ++ l2)).
    rewrite !run_all_cons. destruct (alive (rs_world st) g); [|apply IH].
    by rewrite IH.
Qed.

(** The generators that were run are, in order, among those that stay
    attached, and these are among those that were attached. *)
Lemma run_all_events (channels : nat) (v : list gen_ptr) (st : RunState World) :
  exists r,
    rs_events (run_all channels v st).2 = rs_events st ++ (EvRun <$> r) /\
    r `sublist_of` (run_all channels v st).1 /\
    (run_all channels v st).1 `sublist_of` v.
Proof.
  revert st. induction v as [|g v IH]; intros st.
  - exists []. simpl. by rewrite app_nil_r.
  - rewrite run_all_cons. destruct (alive (rs_world st) g).
    + destruct (IH (run_generator getChannels run mixChannels channels g st))
        as (r & Hev & Hr & Hv).
      simpl. rewrite Hev, run_generator_events.
      destruct (getChannels (rs_world st) g =? 0)%nat.
      * exists r. rewrite app_nil_r. split; [done|].
        split; [by apply sublist_cons|by apply sublist_skip].
      * exists (g :: r). rewrite <- app_assoc. split; [done|].
        split; by apply sublist_skip.
    + destruct (IH st) as (r & Hev & Hr & Hv).
      exists r. split; [done|]. split; [done|by apply sublist_cons].
Qed.

Lemma runs_of_app (l1 l2 : list event) :
  runs_of (l1 ++ l2) = runs_of l1 ++ runs_of l2.
Proof. apply omap_app. Qed.

Lemma runs_of_EvRun (r : list gen_ptr) : runs_of (EvRun <$> r) = r.
Proof.
  induction r as [|g r IH]; [done|].
  change (runs_of (EvRun <$> g :: r)) with (g :: runs_of (EvRun <$> r)).
  by rewrite IH.
Qed.

Lemma runs_of_elem (g : gen_ptr) (events : list event) :
  EvRun g ∈ events <-> g ∈ runs_of events.
Proof.
  unfold runs_of. rewrite list_elem_of_omap. split.
  - intros H. by exists (EvRun g).
  - intros ([| g' |] & H & [= <-]). done.
Qed.

(** *** [fillBlock] *)

Lemma fillBlock_paused_eq (w : World) (time : N) (self : source)
    (channels : nat) :
  isPaused (pausable self) = true ->
  let r := fill w time self channels in
  f_events r = [] /\ f_world r = w /\
  generators (f_source r) = generators self /\
  pausable (f_source r) = pausable self /\
  block (f_source r) = std_fill (block self) (channels * BLOCK_SIZE) F32.zero.
Proof.
  intros Hp. unfold fillBlock.
  destruct (acquireGain (gain_property self)) as [[changed gain_prop] prop].
  by rewrite Hp.
Qed.

(** The generators run by [fillBlock], and the generators it leaves
    attached. *)
Lemma fillBlock_runs (w : World) (time : N) (self : source) (channels : nat) :
  let r := fill w time self channels in
  runs_of (f_events r) `sublist_of` generators (f_source r) /\
  generators (f_source r) `sublist_of` generators self.
Proof.
  unfold fillBlock.
  destruct (acquireGain (gain_property self)) as [[changed gain_prop] prop].
  destruct (isPaused (pausable self)).
  - simpl. split; [apply sublist_nil_l|done].
  - destruct (run_all_events channels (generators self)
                (fill_start w self channels)) as (r & Hev & Hr & Hv).
    destruct (run_all channels (generators self) (fill_start w self channels))
      as [v st].
    simpl in *. rewrite Hev. rewrite runs_of_app.
    change (runs_of (EvTickPausable :: (EvRun <$> r))) with (runs_of (EvRun <$> r)).
    rewrite runs_of_EvRun. simpl. by rewrite app_nil_r.
Qed.

Lemma fillBlock_NoDup (w : World) (time : N) (self : source) (channels : nat) :
  NoDup (generators self) ->
  NoDup (generators (f_source (fill w time self channels))) /\
  NoDup (runs_of (f_events (fill w time self channels))).
Proof.
  intros Hv. destruct (fillBlock_runs w time self channels) as [Hr Hg].
  assert (NoDup (generators (f_source (fill w time self channels)))) as Hv'.
  { by eapply sublist_NoDup. }
  split; [done|]. by eapply sublist_NoDup.
Qed.

Lemma fillBlock_run_attached (w : World) (time : N) (self : source)
    (channels : nat) (g : gen_ptr) :
  EvRun g ∈ f_events (fill w time self channels) -> g ∈ generators self.
Proof.
  intros H. apply runs_of_elem in H.
  destruct (fillBlock_runs w time self channels) as [Hr Hg].
  eapply elem_of_sublist; [|exact Hg]. by eapply elem_of_sublist.
Qed.

(** The generators of a source stay distinct along its life. *)
Lemma source_step_NoDup (self self' : source) :
  source_step alive getChannels run mixChannels isPaused
    shouldIncorporatePausableGain getPausableGain tickPausable acquireGain
    setValue drive self self' ->
  NoDup (generators self) -> NoDup (generators self').
Proof.
  intros Hstep Hv. destruct Hstep as [w s g Hg|w s g Hg|w time s channels].
  - by apply addGenerator_NoDup.
  - by apply removeGenerator_NoDup.
  - by apply fillBlock_NoDup.
Qed.

Lemma source_steps_NoDup (self self' : source) :
  rtc (source_step alive getChannels run mixChannels isPaused
         shouldIncorporatePausableGain getPausableGain tickPausable
         acquireGain setValue drive) self self' ->
  NoDup (generators self) -> NoDup (generators self').
Proof.
  induction 1 as [|s1 s2 s3 Hstep _ IH]; [done|].
  intros Hv. apply IH. by eapply source_step_NoDup.
Qed.

(** C5 (amended). For a paused source [fillBlock] returns early without
    ticking the pausable state: it asks nothing of its collaborators (no
    tick, no generator run, no audio routed), leaves the pausable state,
    the generators and the world as they were, and leaves the
    [channels * BLOCK_SIZE] samples of the block buffer that it fills all
    zero. *)
Theorem fillBlock_paused_returns_early (w : World) (time : N) (self : source)
    (channels : nat) :
  isPaused (pausable self) = true ->
  let r := fill w time self channels in
  f_events r = [] /\ f_world r = w /\
  pausable (f_source r) = pausable self /\
  generators (f_source r) = generators self /\
  block (f_source r) =
    replicate (channels * BLOCK_SIZE) F32.zero ++
    drop (channels * BLOCK_SIZE) (block self) /\
  (forall i : nat, (i < channels * BLOCK_SIZE)%nat ->
                   block (f_source r) !! i = Some F32.zero).
Proof.
  intros Hp r.
  destruct (fillBlock_paused_eq w time self channels Hp)
    as (Hev & Hw & Hg & Hpa & Hb).
  fold r in Hev, Hw, Hg, Hpa, Hb.
  repeat (split; [done|]). intros i Hi. rewrite Hb. unfold std_fill.
  rewrite lookup_app_l by (by rewrite length_replicate).
  by apply lookup_replicate_2.
Qed.

(** C7. A live generator that is added to a source and then removed is
    not attached to the source afterwards, and no [fillBlock] of the
    source runs it; the generators of the source are distinct, as they
    are for every source built with [addGenerator] and [removeGenerator]. *)
Theorem addGenerator_removeGenerator_not_run (w : World) (self : source)
    (g : gen_ptr) :
  alive w g = true -> NoDup (generators self) ->
  let self' := removeGenerator alive w (addGenerator alive w self g) g in
  (g ∉ generators self') /\
  forall (w' : World) (time : N) (channels : nat),
    EvRun g ∉ f_events (fill w' time self' channels).
Proof.
  intros Hg Hv self'.
  assert (g ∉ generators self') as Hout.
  { apply removeGenerator_not_elem; [done|]. by apply addGenerator_NoDup. }
  split; [done|]. intros w' time channels Hrun.
  by apply fillBlock_run_attached in Hrun.
Qed.

(** C9. A generator whose [getChannels()] is 0 when the iteration of
    [fillBlock] reaches it is not run, and the block is rendered as if it
    were not attached: with and without its entry in the vector,
    [fillBlock] asks the same of its collaborators, in the same order,
    and leaves the same block, world, fader, pausable state and gain
    property. *)
Theorem fillBlock_silent_generator (w : World) (time : N) (self : source)
    (channels : nat) (l1 l2 : list gen_ptr) (z : gen_ptr) :
  generators self = l1 ++ z :: l2 ->
  getChannels (rs_world (run_all channels l1 (fill_start w self channels)).2) z
    = 0%nat ->
  let r := fill w time self channels in
  let r' := fill w time (set_generators self (l1 ++ l2)) channels in
  f_events r = f_events r' /\ f_world r = f_world r' /\
  block (f_source r) = block (f_source r') /\
  gain_fader (f_source r) = gain_fader (f_source r') /\
  pausable (f_source r) = pausable (f_source r') /\
  gain_property (f_source r) = gain_property (f_source r') /\
  (z ∉ l1 ++ l2 -> EvRun z ∉ f_events r).
Proof.
  intros Hgens Hz r r'.
  assert (f_events r = f_events r' /\ f_world r = f_world r' /\
          block (f_source r) = block (f_source r') /\
          gain_fader (f_source r) = gain_fader (f_source r') /\
          pausable (f_source r) = pausable (f_source r') /\
          gain_property (f_source r) = gain_property (f_source r')) as Heq.
  { subst r r'. unfold fillBlock. simpl.
    destruct (acquireGain (gain_property self)) as [[changed gain_prop] prop].
    destruct (isPaused (pausable self)); [done|].
    change (fill_start w (set_generators self (l1 ++ l2)) channels)
      with (fill_start w self channels).
    rewrite Hgens, !run_all_app, run_all_cons.
    set (st1 := (run_all channels l1 (fill_start w self channels)).2) in *.
    rewrite (run_generator_silent channels z st1 Hz).
    destruct (alive (rs_world st1) z); simpl;
      destruct (run_all channels l2 st1) as [v2 st2]; done. }
  destruct Heq as (Hev & Hw & Hb & Hf & Hp & Hgp).
  repeat (split; [done|]). intros Hnot Hrun. rewrite Hev in Hrun.
  by apply fillBlock_run_attached in Hrun.
Qed.

(** C10. Adding a live generator that is already attached leaves the
    source as it was, so adding it any number of times is adding it once;
    and when the generators of the source are distinct, they still are
    after the additions and every [fillBlock] runs the generator at most
    once. *)
Theorem addGenerator_idempotent (w : World) (self : source) (g : gen_ptr) :
  alive w g = true ->
  (g ∈ generators self -> addGenerator alive w self g = self) /\
  (forall n : nat,
      Nat.iter (S n) (fun s => addGenerator alive w s g) self =
      addGenerator alive w self g) /\
  (NoDup (generators self) ->
   forall (n : nat) (w' : World) (time : N) (channels : nat),
     let added := Nat.iter n (fun s => addGenerator alive w s g) self in
     NoDup (generators added) /\
     (count_occ Pos.eq_dec
        (runs_of (f_events (fill w' time added channels))) g <= 1)%nat).
Proof.
  intros Hg. split; [by apply addGenerator_present|].
  split; [intros n; by apply addGenerator_again|].
  intros Hv n w' time channels added.
  assert (NoDup (generators added)) as Hv'.
  { subst added. induction n as [|n IH]; [done|].
    simpl. by apply addGenerator_NoDup. }
  split; [done|].
  destruct (fillBlock_NoDup w' time added channels Hv') as [_ Hr].
  apply NoDup_ListNoDup in Hr.
  by apply (proj1 (NoDup_count_occ Pos.eq_dec _) Hr).
Qed.


(** *** More on adding and removing generators *)

Lemma set_generators_same (self : source) :
  set_generators self (generators self) = self.
Proof. by destruct self. Qed.

Lemma length_vec_swap {A : Type} (v : list A) (i j : nat) :
  length (vec_swap v i j) = length v.
Proof.
  unfold vec_swap. destruct (v !! i), (v !! j); by rewrite ?length_insert.
Qed.

(** X14. Adding a live generator leaves the generators that were attached
    where they were, attaches the generator (at the end, if it was not
    attached), and [hasGenerator] finds it afterwards. *)
Theorem addGenerator_members (w : World) (self : source) (g : gen_ptr) :
  alive w g = true ->
  (forall h, h ∈ generators (addGenerator alive w self g) <->
             h ∈ generators self \/ h = g) /\
  generators self `prefix_of` generators (addGenerator alive w self g) /\
  hasGenerator alive w (addGenerator alive w self g) g = true.
Proof.
  intros Hg. split; [|split].
  - intros h. rewrite addGenerator_generators by done.
    case_bool_decide as Hin.
    + split; [by left|]. by intros [?| ->].
    + rewrite elem_of_app, list_elem_of_singleton. done.
  - rewrite addGenerator_generators by done.
    case_bool_decide; [done|]. by apply prefix_app_r.
  - apply weak_vector_contains_true. split; [|done]. by apply addGenerator_elem.
Qed.

(** X15. Removing a live generator from a source whose generators are
    distinct detaches that generator and no other: the others all stay
    attached, [hasGenerator] no longer finds it, and the vector is one
    shorter when it was attached; when it was not attached, the source is
    left as it was. *)
Theorem removeGenerator_members (w : World) (self : source) (g : gen_ptr) :
  alive w g = true -> NoDup (generators self) ->
  (forall h, h ∈ generators (removeGenerator alive w self g) <->
             h ∈ generators self /\ h <> g) /\
  hasGenerator alive w (removeGenerator alive w self g) g = false /\
  (g ∈ generators self ->
   length (generators (removeGenerator alive w self g)) =
   (length (generators self) - 1)%nat) /\
  (g ∉ generators self -> removeGenerator alive w self g = self).
Proof.
  intros Hg Hv.
  assert (hasGenerator alive w (removeGenerator alive w self g) g = false)
    as Hhas.
  { apply weak_vector_contains_false; [done|].
    by apply removeGenerator_not_elem. }
  destruct (decide (g ∈ generators self)) as [Hin|Hin].
  - destruct (removeGenerator_generators w self g Hg Hin)
      as (index & Hidx & Heq).
    pose proof (lookup_lt_Some _ _ _ Hidx) as Hlt.
    split; [|split; [done|split; [|done]]].
    + intros h. rewrite Heq. split.
      * intros Hh. apply swap_remove_elem in Hh as (k & Hk & Hkh); [|done].
        split; [by eapply list_elem_of_lookup_2|].
        intros ->. rewrite NoDup_alt in Hv. by apply Hk, (Hv k index g).
      * intros [Hh Hne]. apply list_elem_of_lookup in Hh as [k Hk].
        pose proof (lookup_lt_Some _ _ _ Hk) as Hklt.
        assert (k <> index) as Hki by (intros ->; congruence).
        destruct (decide (k < length (generators self) - 1)%nat) as [Hs|Hl].
        -- apply (list_elem_of_lookup_2 _ k).
           rewrite swap_remove_lookup by done. by rewrite decide_False.
        -- assert (k = (length (generators self) - 1)%nat) as -> by lia.
           apply (list_elem_of_lookup_2 _ index).
           rewrite swap_remove_lookup by (done || lia).
           by rewrite decide_True.
    + intros _. rewrite Heq, length_take, length_vec_swap. lia.
  - pose proof (removeGenerator_absent w self g Hin) as Heq.
    split; [|split; [done|split; [done|done]]].
    intros h. rewrite Heq. split; [|by intros [? _]].
    intros Hh. split; [done|]. by intros ->.
Qed.

(** X16. Adding a live generator that was not attached and removing it
    again gives back the source exactly as it was. *)
Theorem removeGenerator_addGenerator_round_trip (w : World) (self : source)
    (g : gen_ptr) :
  alive w g = true -> g ∉ generators self ->
  removeGenerator alive w (addGenerator alive w self g) g = self.
Proof.
  intros Hg Hin.
  pose proof (removeGenerator_addGenerator_fresh w self g Hg Hin) as Hgens.
  assert (forall s : source,
    removeGenerator alive w s g = set_generators s
      (generators (removeGenerator alive w s g))) as Hrem.
  { intros s. unfold removeGenerator.
    repeat (case_match; simpl; rewrite ?set_generators_same; try done). }
  assert (addGenerator alive w self g =
          set_generators self (generators (addGenerator alive w self g)))
    as Hadd.
  { unfold addGenerator. case_match; simpl; by rewrite ?set_generators_same. }
  rewrite Hrem, Hgens. rewrite Hadd. by destruct self.
Qed.

(** X17. The generators of a source stay distinct: whatever sequence of
    [addGenerator] and [removeGenerator] of live generators and of
    [fillBlock] a source with distinct generators goes through, no
    generator is attached twice. *)
Theorem source_generators_stay_distinct (self self' : source) :
  rtc (source_step alive getChannels run mixChannels isPaused
         shouldIncorporatePausableGain getPausableGain tickPausable
         acquireGain setValue drive) self self' ->
  NoDup (generators self) -> NoDup (generators self').
Proof. apply source_steps_NoDup. Qed.


(** *** More on [fillBlock] *)

(** X18. For a source that is not paused, [fillBlock] ticks the pausable
    state once and first, then runs generators, and last routes the block
    it leaves, once. *)
Theorem fillBlock_unpaused_events (w : World) (time : N) (self : source)
    (channels : nat) :
  isPaused (pausable self) = false ->
  let r := fill w time self channels in
  pausable (f_source r) = tickPausable (pausable self) /\
  exists runs,
    f_events r =
      EvTickPausable :: (EvRun <$> runs) ++
      [EvRouteAudio (block (f_source r)) channels] /\
    runs `sublist_of` generators (f_source r).
Proof.
  intros Hp. unfold fillBlock.
  destruct (acquireGain (gain_property self)) as [[changed gain_prop] prop].
  rewrite Hp.
  destruct (run_all_events channels (generators self)
              (fill_start w self channels)) as (r & Hev & Hr & _).
  destruct (run_all channels (generators self) (fill_start w self channels))
    as [v st].
  cbn [fst snd] in *. simpl. split; [done|]. exists r. by rewrite Hev.
Qed.





(** *** The gain loop *)

Lemma alter_run_lookup (f : F32.t -> F32.t) (base n : nat) (blk : list F32.t)
    (j : nat) :
  foldl (fun b ch => alter f (base + ch)%nat b) blk (seq 0 n) !! j =
  if decide (base <= j < base + n)%nat then f <$> blk !! j else blk !! j.
Proof.
  induction n as [|n IH].
  - simpl. by rewrite decide_False by lia.
  - rewrite seq_S, foldl_app. cbn [foldl]. rewrite Nat.add_0_l.
    destruct (decide (j = base + n)%nat) as [->|Hne].
    + rewrite list_lookup_alter_eq, IH.
      rewrite decide_False by lia. by rewrite decide_True by lia.
    + rewrite list_lookup_alter_ne by done. rewrite IH.
      destruct (decide (base <= j < base + n)%nat).
      * by rewrite decide_True by lia.
      * by rewrite decide_False by lia.
Qed.

(** X21. The gain loop of [fillBlock] multiplies every sample of the
    [BLOCK_SIZE] frames by the gain of its frame, once, and leaves the
    samples after them alone. *)
Theorem apply_gain_lookup (channels : nat) (gain_cb : nat -> F32.t)
    (blk : list F32.t) (j : nat) :
  apply_gain channels gain_cb blk !! j =
  if decide (j < BLOCK_SIZE * channels)%nat
  then (fun x => F32.mul x (gain_cb (j `div` channels)%nat)) <$> blk !! j
  else blk !! j.
Proof.
  unfold apply_gain. generalize BLOCK_SIZE. intros k.
  induction k as [|k IH].
  - cbn [seq foldl]. by rewrite decide_False by lia.
  - rewrite seq_S, foldl_app. cbn [foldl]. rewrite Nat.add_0_l.
    rewrite (alter_run_lookup (fun x => F32.mul x (gain_cb k))
               (k * channels) channels).
    rewrite IH.
    destruct (decide (k * channels <= j < k * channels + channels)%nat)
      as [Hin|Hout].
    + rewrite decide_False by lia. rewrite decide_True by lia.
      replace (j `div` channels)%nat with k; [done|].
      apply (Nat.div_unique j channels k (j - k * channels)); lia.
    + destruct (decide (j < k * channels)%nat).
      * by rewrite decide_True by lia.
      * by rewrite decide_False by lia.
Qed.

End SourceFacts.

(** *** The source theorems at concrete sources *)

(** A paused stereo source whose block buffer holds stale samples. *)
Lemma fillBlock_paused_returns_early_witness :
  let self := SourceRig.source [1; 2]%positive SourceRig.stale true in
  let r := SourceRig.fillBlock SourceRig.world 0%N self 2 in
  f_events r = [] /\ f_world r = SourceRig.world /\
  pausable (f_source r) = pausable self /\
  generators (f_source r) = generators self /\
  block (f_source r) =
    replicate (2 * BLOCK_SIZE) F32.zero ++ drop (2 * BLOCK_SIZE) (block self) /\
  (forall i : nat, (i < 2 * BLOCK_SIZE)%nat ->
                   block (f_source r) !! i = Some F32.zero).
Proof.
  intros self.
  apply (fillBlock_paused_returns_early _ SourceRig.alive SourceRig.getChannels
           SourceRig.run SourceRig.mixChannels _ SourceRig.paused
           (fun _ => false) SourceRig.getPausableGain SourceRig.tickPausable
           _ SourceRig.acquireGain _ SourceRig.setValue SourceRig.drive
           SourceRig.world 0%N self 2%nat).
  reflexivity.
Defined.

(** C5, as stated, fails: the paused source above is not ticked by
    [fillBlock]. There is no tick among the events, and the pausable
    state, which counts its ticks, is not the ticked one. *)
Lemma fillBlock_paused_does_not_tick :
  let self := SourceRig.source [1; 2]%positive SourceRig.stale true in
  let r := SourceRig.fillBlock SourceRig.world 0%N self 2 in
  SourceRig.paused (pausable self) = true /\
  ~ (EvTickPausable ∈ f_events r \/
     pausable (f_source r) = SourceRig.tickPausable (pausable self)).
Proof.
  split; [reflexivity|]. intros [Hev|Hst].
  - vm_compute in Hev. by apply elem_of_nil in Hev.
  - vm_compute in Hst. discriminate Hst.
Qed.

(** Generator 2 is added to and removed from a source that holds
    generators 1 and 2. *)
Lemma addGenerator_removeGenerator_not_run_witness :
  let self := SourceRig.source [1; 2]%positive SourceRig.stale false in
  let self' :=
    removeGenerator SourceRig.alive SourceRig.world
      (addGenerator SourceRig.alive SourceRig.world self 2%positive)
      2%positive in
  (2%positive ∉ generators self') /\
  forall (w' : SourceRig.World) (time : N) (channels : nat),
    EvRun 2%positive ∉ f_events (SourceRig.fillBlock w' time self' channels).
Proof.
  intros self.
  apply (addGenerator_removeGenerator_not_run _ SourceRig.alive
           SourceRig.getChannels SourceRig.run SourceRig.mixChannels
           _ SourceRig.paused (fun _ => false) SourceRig.getPausableGain
           SourceRig.tickPausable _ SourceRig.acquireGain _ SourceRig.setValue
           SourceRig.drive SourceRig.world self 2%positive).
  - reflexivity.
  - refine (bool_decide_unpack _ _). vm_compute. exact I.
Defined.

(** Generator 3 has no channels in this block; it sits between the mono
    generator 2 and the stereo generator 1 of a stereo source. *)
Lemma fillBlock_silent_generator_witness :
  let self := SourceRig.source [2; 3; 1]%positive SourceRig.stale false in
  let r := SourceRig.fillBlock SourceRig.world 0%N self 2 in
  let r' := SourceRig.fillBlock SourceRig.world 0%N
              (set_generators self [2; 1]%positive) 2 in
  f_events r = f_events r' /\ f_world r = f_world r' /\
  block (f_source r) = block (f_source r') /\
  gain_fader (f_source r) = gain_fader (f_source r') /\
  pausable (f_source r) = pausable (f_source r') /\
  gain_property (f_source r) = gain_property (f_source r') /\
  (3%positive ∉ [2; 1]%positive -> EvRun 3%positive ∉ f_events r).
Proof.
  intros self.
  apply (fillBlock_silent_generator _ SourceRig.alive
           SourceRig.getChannels SourceRig.run SourceRig.mixChannels
           _ SourceRig.paused (fun _ => false) SourceRig.getPausableGain
           SourceRig.tickPausable _ SourceRig.acquireGain _ SourceRig.setValue
           SourceRig.drive SourceRig.world 0%N self 2%nat
           [2%positive] [1%positive] 3%positive).
  - reflexivity.
  - vm_compute. reflexivity.
Defined.

(** Generator 2 is added again to a source that holds generators 1
    and 2. *)
Lemma addGenerator_idempotent_witness :
  let self := SourceRig.source [1; 2]%positive SourceRig.stale false in
  let add := fun s => addGenerator SourceRig.alive SourceRig.world s 2%positive in
  add self = self /\
  add (add (add self)) = add self /\
  (count_occ Pos.eq_dec
     (runs_of (f_events (SourceRig.fillBlock SourceRig.world 0%N
                           (add (add self)) 2))) 2%positive <= 1)%nat.
Proof.
  intros self add.
  destruct (addGenerator_idempotent _ SourceRig.alive
              SourceRig.getChannels SourceRig.run SourceRig.mixChannels
              _ SourceRig.paused (fun _ => false) SourceRig.getPausableGain
              SourceRig.tickPausable _ SourceRig.acquireGain _
              SourceRig.setValue SourceRig.drive SourceRig.world self
              2%positive eq_refl) as (Hsame & Hiter & Hrun).
  split; [|split].
  - apply Hsame. refine (bool_decide_unpack _ _). vm_compute. exact I.
  - exact (Hiter 2%nat).
  - assert (NoDup (generators self)) as Hv.
    { refine (bool_decide_unpack _ _). vm_compute. exact I. }
    exact (proj2 (Hrun Hv 2%nat SourceRig.world 0%N 2%nat)).
Defined.

(** ** More on the biquad filter *)

(** A fresh mono filter configured to multiply by 3 renders a constant
    input onto a silent buffer and onto a buffer of 0.25, with adding. *)
Lemma processBlock_overwrites_output_witness :
  let self := configure GainFilter.setParameters GainFilter.fresh
                (GainFilter.scale 3) in
  let inb := GainFilter.constant F32.one in
  let out1 := GainFilter.constant F32.zero in
  let out2 := GainFilter.constant GainFilter.quarter in
  (processBlock 1 GainFilter.tick self inb out1 true).1 =
  (processBlock 1 GainFilter.tick self inb out2 true).1 /\
  take (1 * BLOCK_SIZE) (processBlock 1 GainFilter.tick self inb out1 true).2 =
  take (1 * BLOCK_SIZE) (processBlock 1 GainFilter.tick self inb out2 true).2.
Proof.
  intros self inb out1 out2.
  apply (processBlock_overwrites_output 1 GainFilter.t GainFilter.tick
           self inb out1 out2 true).
  - intros f i Hi. unfold GainFilter.tick. cbn [snd].
    rewrite length_map. unfold frame_at.
    rewrite length_take, length_drop. subst inb. unfold GainFilter.constant.
    rewrite length_replicate. lia.
  - reflexivity.
Defined.

Section FactoryFacts.
Variable IIRFilterOf : nat -> Type.
Variable setParametersOf :
  forall n : nat, IIRFilterOf n -> BiquadFilterDef -> IIRFilterOf n.
Variable IIRFilterOf_new : forall n : nat, IIRFilterOf n.
Variable designWire : BiquadFilterDef.

(** X6. [createBiquadFilter(channels)] gives, for every channel count
    from 1 to [MAX_CHANNELS], a freshly constructed filter for exactly
    that many channels (the table of factories has [MAX_CHANNELS] entries,
    in order); for any other count an assertion fails. *)
Theorem createBiquadFilter_channels (channels : nat) :
  length (factories setParametersOf IIRFilterOf_new designWire) = MAX_CHANNELS /\
  createBiquadFilter setParametersOf IIRFilterOf_new designWire channels =
  if decide (1 <= channels <= MAX_CHANNELS)%nat
  then Some (biquadFilterFactory setParametersOf IIRFilterOf_new designWire
               channels tt)
  else None.
Proof.
  split; [reflexivity|].
  do 17 (destruct channels as [|channels]; [reflexivity|]).
  change MAX_CHANNELS with 16%nat.
  rewrite decide_False by lia. reflexivity.
Qed.

End FactoryFacts.

Section DesignFacts.
Variable IIRFilter : Type.
Variable setParameters : IIRFilter -> BiquadFilterDef -> IIRFilter.

(** [configure] undoes [convertBiquadDef]: the definition it hands to the
    filter is the one the configuration was converted from. *)
Lemma configure_convertBiquadDef (self : ConcreteBiquadFilter IIRFilter)
    (def : BiquadFilterDef) :
  filters_get (filters (configure setParameters self (convertBiquadDef def)))
              (Z.lxor (active self) 1) =
  setParameters (filters_get (filters self) (Z.lxor (active self) 1)) def.
Proof.
  unfold configure. cbn [filters]. rewrite filters_get_set.
  destruct def as [[[n0 n1] n2] [d0 d1] g]. reflexivity.
Qed.

(** X7. Configuring a filter with what [syz_designBiquadLowpass],
    [syz_designBiquadHighpass] or [syz_designBiquadBandpass] wrote sets
    the parameters of the filter at index [active ^ 1] to the design for
    [frequency / SR]: the conversion to [syz_BiquadConfig] and back loses
    nothing. The filter at index [active] (0 or 1) is left as it was. *)
Theorem configure_designed (lowpass highpass bandpass : F64.t -> F64.t -> BiquadFilterDef)
    (self : ConcreteBiquadFilter IIRFilter) (old : syz_BiquadConfig)
    (frequency q : F64.t) :
  let inactive := filters_get (filters self) (Z.lxor (active self) 1) in
  let normalized := F64.div frequency (F64.of_Z 44100) in
  let after design := configure setParameters self (design old frequency q).2 in
  filters_get (filters (after (syz_designBiquadLowpass lowpass)))
              (Z.lxor (active self) 1) =
    setParameters inactive (lowpass normalized q) /\
  filters_get (filters (after (syz_designBiquadHighpass highpass)))
              (Z.lxor (active self) 1) =
    setParameters inactive (highpass normalized q) /\
  filters_get (filters (after (syz_designBiquadBandpass bandpass)))
              (Z.lxor (active self) 1) =
    setParameters inactive (bandpass normalized q) /\
  (forall config,
      active self = 0 \/ active self = 1 ->
      filters_get (filters (configure setParameters self config)) (active self) =
      filters_get (filters self) (active self)).
Proof.
  intros inactive normalized after. subst after. cbn [snd].
  unfold syz_designBiquadLowpass, syz_designBiquadHighpass,
    syz_designBiquadBandpass. cbn [snd].
  rewrite !configure_convertBiquadDef. repeat (split; [done|]).
  intros config Ha. unfold configure. cbn [filters].
  by apply filters_get_set_other.
Qed.

End DesignFacts.

(** ** More on property dispatch *)

Section PropertyMore.
Variable CExposable : Type.
Variable Cls : Type.
Variable instance_of : CExposable -> Cls -> bool.



Lemma setProperty_declared (c : property_class Cls) (m : members CExposable)
    (property : Z) (d : property_decl Cls) (value : PropertyValue CExposable) :
  declared c property = Some d ->
  setProperty c m property value =
  if bool_decide (value_kind value = decl_kind d)
  then Ok (<[property := value]> m)
  else Throw EPropertyType.
Proof.
  induction c as [|props base IH]; simpl; [done|].
  destruct (switch_case props property) as [d'|]; [|exact IH].
  by intros [= ->].
Qed.


(** X9. [setProperty] checks the alternative of the value and nothing
    else: for a declared property it stores every value of the declared
    kind, in range or not, and throws [EPropertyType] for every other
    value. A value that [validateProperty] accepts is always stored. *)
Theorem setProperty_checks_kind_only (c : property_class Cls)
    (m : members CExposable) (property : Z) (d : property_decl Cls)
    (value : PropertyValue CExposable) :
  declared c property = Some d ->
  (value_kind value = decl_kind d ->
   setProperty c m property value = Ok (<[property := value]> m)) /\
  (value_kind value <> decl_kind d ->
   setProperty c m property value = Throw EPropertyType) /\
  (validateProperty instance_of c property value = Ok tt ->
   setProperty c m property value = Ok (<[property := value]> m)).
Proof.
  intros Hd. rewrite (setProperty_declared c m property d value Hd).
  rewrite (validateProperty_declared _ _ instance_of c property d value Hd).
  case_bool_decide as Hk; repeat split; try done.
Qed.

(** X10. For an int property [validateProperty] accepts exactly the
    values of the inclusive range: both bounds are accepted. *)
Theorem validateProperty_int_range (c : property_class Cls) (property p : Z)
    (min max x : Z) :
  declared c property = Some (INT_P p min max) ->
  validateProperty instance_of c property (PV_int x) = Ok tt <->
  min <= x <= max.
Proof.
  intros Hd.
  rewrite (validateProperty_declared _ _ instance_of c property _ _ Hd). simpl.
  destruct (x <? min) eqn:E1; simpl; [split; [done|lia]|].
  destruct (x >? max) eqn:E2; simpl; split; try done; lia.
Qed.

(** X11. For an object property [validateProperty] accepts exactly the
    null reference and the instances of the required class. *)
Theorem validateProperty_object (c : property_class Cls) (property p : Z)
    (cls : Cls) (x : option CExposable) :
  declared c property = Some (OBJECT_P p cls) ->
  validateProperty instance_of c property (PV_object x) = Ok tt <->
  x = None \/ exists o, x = Some o /\ instance_of o cls = true.
Proof.
  intros Hd.
  rewrite (validateProperty_declared _ _ instance_of c property _ _ Hd). simpl.
  destruct x as [o|]; [|split; [by left|done]].
  destruct (instance_of o cls) eqn:E; split; try done.
  - intros _. right. by exists o.
  - intros [?|(o' & [= <-] & Ho)]; [done|congruence].
Qed.

(** X12. The range check of a double property lets NaN through, whatever
    the range: neither [x < min] nor [x > max] holds of it. *)
Theorem validateProperty_nan (c : property_class Cls) (property p : Z)
    (min max : F64.t) :
  declared c property = Some (DOUBLE_P p min max) ->
  validateProperty instance_of c property (PV_double S754_nan) = Ok tt.
Proof.
  intros Hd.
  rewrite (validateProperty_declared _ _ instance_of c property _ _ Hd). simpl.
  unfold F64.ltb, SFltb. simpl. by destruct max.
Qed.

Lemma digits2_pos_size (m : positive) : digits2_pos m = Pos.size m.
Proof. induction m as [m IH|m IH|]; simpl; by rewrite ?IH. Qed.

(** The mantissa of a binary64 number with the largest exponent. *)
Lemma bounded_top_mantissa (m : positive) :
  bounded F64.prec F64.emax m (F64.emax - F64.prec) = true ->
  (m <= 9007199254740991)%positive.
Proof.
  unfold bounded, canonical_mantissa, fexp, emin, F64.prec, F64.emax.
  rewrite digits2_pos_size. intros [Hc _]%andb_true_iff.
  apply Z.eqb_eq in Hc.
  assert (Pos.size m = 53%positive) as Hs by lia.
  pose proof (Pos.size_gt m) as Hgt. rewrite Hs in Hgt.
  apply Pos.lt_succ_r. exact Hgt.
Qed.

Lemma compare_cont_le (m M : positive) :
  (m <= M)%positive ->
  PosDef.Pos.compare_cont Eq m M <> Gt /\ PosDef.Pos.compare_cont Eq M m <> Lt.
Proof.
  intros H. split; [exact H|].
  pose proof (Pos.compare_antisym m M) as Hanti. unfold Pos.compare in Hanti.
  rewrite Hanti. unfold Pos.le, Pos.compare in H.
  destruct (PosDef.Pos.compare_cont Eq m M); simpl; congruence.
Qed.

(** A finite number whose exponent is at most [E], and whose mantissa is
    at most [M] when the exponent is [E], lies between [-M * 2^E] and
    [M * 2^E]. *)
Lemma SFltb_finite_bounds (s : bool) (m M : positive) (e E : Z) :
  e <= E -> (e = E -> (m <= M)%positive) ->
  SFltb (S754_finite s m e) (S754_finite true M E) = false /\
  SFltb (S754_finite false M E) (S754_finite s m e) = false.
Proof.
  intros He Hm. unfold SFltb, SFcompare.
  destruct s.
  - split; [|reflexivity].
    destruct (Z.compare_spec e E) as [->|Hlt|Hgt]; [|reflexivity|lia].
    destruct (compare_cont_le m M (Hm eq_refl)) as [H1 _].
    destruct (PosDef.Pos.compare_cont Eq m M); simpl; congruence.
  - split; [reflexivity|].
    destruct (Z.compare_spec E e) as [<-|Hlt|Hgt]; [|lia|reflexivity].
    destruct (compare_cont_le m M (Hm eq_refl)) as [_ H2].
    destruct (PosDef.Pos.compare_cont Eq M m); simpl; congruence.
Qed.

Lemma double_max_eq :
  property_impl.double_max = S754_finite false 9007199254740991 971.
Proof. reflexivity. Qed.

Lemma double_min_eq :
  property_impl.double_min = S754_finite true 9007199254740991 971.
Proof. reflexivity. Qed.

(** X13. A double property declared over the widest range, from
    [std::numeric_limits<double>::lowest()] to [max()], accepts every
    binary64 value except the two infinities. *)
Theorem validateProperty_double_widest (c : property_class Cls)
    (property p : Z) (x : F64.t) :
  declared c property =
    Some (DOUBLE_P p property_impl.double_min property_impl.double_max) ->
  valid_binary F64.prec F64.emax x = true ->
  validateProperty instance_of c property (PV_double x) = Ok tt <->
  x <> S754_infinity false /\ x <> S754_infinity true.
Proof.
  intros Hd Hx.
  rewrite (validateProperty_declared _ _ instance_of c property _ _ Hd).
  cbn [value_kind decl_kind checker bool_decide decide_rel].
  rewrite bool_decide_eq_true_2 by reflexivity.
  rewrite double_max_eq, double_min_eq. unfold F64.ltb.
  destruct x as [[|]|[|]| |s m e].
  - split; [intros _; split; discriminate|reflexivity].
  - split; [intros _; split; discriminate|reflexivity].
  - split; [discriminate|]. intros [_ H]. by destruct H.
  - split; [discriminate|]. intros [H _]. by destruct H.
  - split; [intros _; split; discriminate|reflexivity].
  - split; [intros _; split; discriminate|]. intros _. simpl in Hx.
    destruct (SFltb_finite_bounds s m 9007199254740991 e 971) as [-> ->];
      [| |reflexivity].
    + unfold bounded in Hx. apply andb_true_iff in Hx as [_ Hx].
      apply Z.leb_le in Hx. exact Hx.
    + intros ->. by apply bounded_top_mantissa.
Qed.

End PropertyMore.


(** The gain of the panned source is set to -1.0, and to an int. *)
Lemma setProperty_checks_kind_only_witness :
  let m := obj_members PropertyRig.panned_source in
  setProperty PropertyRig.PannedSource_class m SYZ_P_GAIN
    (PV_double PropertyRig.minus_one) =
    Ok (<[SYZ_P_GAIN := PV_double PropertyRig.minus_one]> m) /\
  setProperty PropertyRig.PannedSource_class m SYZ_P_GAIN (PV_int 1) =
    Throw EPropertyType.
Proof.
  intros m. split.
  - destruct (setProperty_checks_kind_only PropertyRig.exposable
                PropertyRig.cls PropertyRig.instance_of
                PropertyRig.PannedSource_class m SYZ_P_GAIN
                (DOUBLE_P SYZ_P_GAIN F64.zero PropertyRig.double_max)
                (PV_double PropertyRig.minus_one) eq_refl) as (Hsame & _ & _).
    apply Hsame. reflexivity.
  - destruct (setProperty_checks_kind_only PropertyRig.exposable
                PropertyRig.cls PropertyRig.instance_of
                PropertyRig.PannedSource_class m SYZ_P_GAIN
                (DOUBLE_P SYZ_P_GAIN F64.zero PropertyRig.double_max)
                (PV_int 1) eq_refl) as (_ & Hother & _).
    apply Hother. simpl. discriminate.
Defined.

(** The panner strategy of the panned source, which ranges over 0 and 1. *)
Lemma validateProperty_int_range_witness :
  validateProperty PropertyRig.instance_of PropertyRig.PannedSource_class
    SYZ_P_PANNER_STRATEGY (PV_int (CExposable := PropertyRig.exposable) 1) =
    Ok tt <-> 0 <= 1 <= 1.
Proof.
  apply (validateProperty_int_range PropertyRig.exposable PropertyRig.cls
           PropertyRig.instance_of PropertyRig.PannedSource_class
           SYZ_P_PANNER_STRATEGY SYZ_P_PANNER_STRATEGY 0 1 1).
  reflexivity.
Defined.

(** The buffer of the buffer generator is set to a buffer. *)
Lemma validateProperty_object_witness :
  let x := Some (PropertyRig.mkExposable 7 PropertyRig.Buffer) in
  validateProperty PropertyRig.instance_of PropertyRig.BufferGenerator_class
    SYZ_P_BUFFER (PV_object x) = Ok tt <->
  x = None \/
  exists o, x = Some o /\ PropertyRig.instance_of o PropertyRig.Buffer = true.
Proof.
  intros x.
  apply (validateProperty_object PropertyRig.exposable PropertyRig.cls
           PropertyRig.instance_of PropertyRig.BufferGenerator_class
           SYZ_P_BUFFER SYZ_P_BUFFER PropertyRig.Buffer x).
  reflexivity.
Defined.

(** The gain of the panned source is set to NaN. *)
Lemma validateProperty_nan_witness :
  validateProperty PropertyRig.instance_of PropertyRig.PannedSource_class
    SYZ_P_GAIN (PV_double (CExposable := PropertyRig.exposable) S754_nan) =
  Ok tt.
Proof.
  apply (validateProperty_nan PropertyRig.exposable PropertyRig.cls
           PropertyRig.instance_of PropertyRig.PannedSource_class
           SYZ_P_GAIN SYZ_P_GAIN F64.zero PropertyRig.double_max).
  reflexivity.
Defined.

(** The pitch bend of the class with the widest ranges is set to 1.0. *)
Lemma validateProperty_double_widest_witness :
  validateProperty PropertyRig.instance_of WideRig.wide_class
    WideRig.SYZ_P_PITCH_BEND
    (PV_double (CExposable := PropertyRig.exposable) F64.one) = Ok tt <->
  F64.one <> S754_infinity false /\ F64.one <> S754_infinity true.
Proof.
  apply (validateProperty_double_widest PropertyRig.exposable PropertyRig.cls
           PropertyRig.instance_of WideRig.wide_class
           WideRig.SYZ_P_PITCH_BEND WideRig.SYZ_P_PITCH_BEND F64.one).
  - reflexivity.
  - reflexivity.
Defined.

(** ** More on sources, at concrete sources *)

(** Generator 3 is added to a source that holds generators 1 and 2. *)
Lemma addGenerator_members_witness :
  let self := SourceRig.source [1; 2]%positive SourceRig.stale false in
  let added := addGenerator SourceRig.alive SourceRig.world self 3%positive in
  (forall h, h ∈ generators added <-> h ∈ generators self \/ h = 3%positive) /\
  generators self `prefix_of` generators added /\
  hasGenerator SourceRig.alive SourceRig.world added 3%positive = true.
Proof.
  intros self.
  apply (addGenerator_members _ SourceRig.alive _ _ _ SourceRig.world self
           3%positive).
  reflexivity.
Defined.

(** Generator 1 is removed from a source that holds generators 1, 2
    and 3. *)
Lemma removeGenerator_members_witness :
  let self := SourceRig.source [1; 2; 3]%positive SourceRig.stale false in
  let removed :=
    removeGenerator SourceRig.alive SourceRig.world self 1%positive in
  (forall h, h ∈ generators removed <->
             h ∈ generators self /\ h <> 1%positive) /\
  hasGenerator SourceRig.alive SourceRig.world removed 1%positive = false /\
  (1%positive ∈ generators self ->
   length (generators removed) = (length (generators self) - 1)%nat) /\
  (1%positive ∉ generators self -> removed = self).
Proof.
  intros self.
  apply (removeGenerator_members _ SourceRig.alive _ _ _ SourceRig.world self
           1%positive).
  - reflexivity.
  - refine (bool_decide_unpack _ _). vm_compute. exact I.
Defined.

(** Generator 3 is added to and removed from a source that holds
    generators 1 and 2. *)
Lemma removeGenerator_addGenerator_round_trip_witness :
  let self := SourceRig.source [1; 2]%positive SourceRig.stale false in
  removeGenerator SourceRig.alive SourceRig.world
    (addGenerator SourceRig.alive SourceRig.world self 3%positive) 3%positive =
  self.
Proof.
  intros self.
  apply (removeGenerator_addGenerator_round_trip _ SourceRig.alive _ _ _
           SourceRig.world self 3%positive).
  - reflexivity.
  - refine (bool_decide_unpack _ _). vm_compute. exact I.
Defined.

(** A source without generators gets generators 1 and 2, generator 1
    again, renders a block and loses generator 1. *)
Lemma source_generators_stay_distinct_witness :
  let s0 := SourceRig.source [] SourceRig.stale false in
  let s1 := addGenerator SourceRig.alive SourceRig.world s0 1%positive in
  let s2 := addGenerator SourceRig.alive SourceRig.world s1 2%positive in
  let s3 := addGenerator SourceRig.alive SourceRig.world s2 1%positive in
  let s4 := f_source (SourceRig.fillBlock SourceRig.world 0%N s3 2) in
  let s5 := removeGenerator SourceRig.alive SourceRig.world s4 1%positive in
  NoDup (generators s5).
Proof.
  intros s0 s1 s2 s3 s4 s5.
  apply (source_generators_stay_distinct _ SourceRig.alive
           SourceRig.getChannels SourceRig.run SourceRig.mixChannels
           _ SourceRig.paused (fun _ => false) SourceRig.getPausableGain
           SourceRig.tickPausable _ SourceRig.acquireGain _ SourceRig.setValue
           SourceRig.drive s0 s5).
  - apply (rtc_l _ s0 s1); [by apply step_add|].
    apply (rtc_l _ s1 s2); [by apply step_add|].
    apply (rtc_l _ s2 s3); [by apply step_add|].
    apply (rtc_l _ s3 s4); [apply step_fill|].
    apply (rtc_l _ s4 s5); [by apply step_remove|].
    apply rtc_refl.
  - apply NoDup_nil_2.
Defined.

(** A stereo source that is not paused renders generators 2, 3 and 1. *)
Lemma fillBlock_unpaused_events_witness :
  let self := SourceRig.source [2; 3; 1]%positive SourceRig.stale false in
  let r := SourceRig.fillBlock SourceRig.world 0%N self 2 in
  pausable (f_source r) = SourceRig.tickPausable (pausable self) /\
  exists runs,
    f_events r =
      EvTickPausable :: (EvRun <$> runs) ++
      [EvRouteAudio (block (f_source r)) 2] /\
    runs `sublist_of` generators (f_source r).
Proof.
  intros self.
  apply (fillBlock_unpaused_events _ SourceRig.alive
           SourceRig.getChannels SourceRig.run SourceRig.mixChannels
           _ SourceRig.paused (fun _ => false) SourceRig.getPausableGain
           SourceRig.tickPausable _ SourceRig.acquireGain _ SourceRig.setValue
           SourceRig.drive SourceRig.world 0%N self 2%nat).
  reflexivity.
Defined.

